(** * go-slippi: replay reader and frame assembler

    A shallow embedding of the Slippi replay reader ([SlpReader],
    dolphin_connection.go) and of the frame assembler ([SlpParser],
    parser.go), with the properties of the specification stated over it.

    Conventions of the embedding:
    - Go's fixed-width integers are [Z] with the wrap-around written out
      ([int32], [int8], [uint8], ...); a [float32] is kept as its IEEE-754
      bit pattern, which is what [math.Float32frombits] receives.
    - Go maps held in parser state are [gmap]s. The two maps inside a
      [FrameEntry] are Go reference values: copying a [FrameEntry] copies
      the reference, not the map. They are modelled as references into a
      store of map objects ([maps]) so that this sharing is visible.
    - A method that mutates its receiver is a function in the monad [M]:
      it threads the parser and either returns or panics (Go's run-time
      panic: nil dereference, write to a nil map, failed type assertion).
      Go [error] values are ordinary results.
    - [Trigger] appends to the log [emitted]; the log stands for what the
      handler channels receive, in the order of the [Trigger] calls. *)

From stdpp Require Import gmap list strings sorting.
From Stdlib Require Import ZArith Lia.

Local Open Scope Z_scope.

(** ** Fixed-width integers *)

Definition wrapU (w : Z) (z : Z) : Z := z mod 2 ^ w.
Definition wrapS (w : Z) (z : Z) : Z := (z + 2 ^ (w - 1)) mod 2 ^ w - 2 ^ (w - 1).

Definition uint8 := wrapU 8.
Definition uint16 := wrapU 16.
Definition uint32 := wrapU 32.
Definition int8 := wrapS 8.
Definition int32 := wrapS 32.
(** Go's [int] on the 64-bit targets the library is built for. *)
Definition int := wrapS 64.

Definition minInt32 : Z := - 2 ^ 31.
Definition maxInt32 : Z := 2 ^ 31 - 1.
Definition isInt32 (z : Z) : Prop := minInt32 <= z <= maxInt32.
Definition isInt32b (z : Z) : bool := (minInt32 <=? z) && (z <=? maxInt32).

(** A [float32], as the 32 bits [math.Float32frombits] is given. *)
Definition float32 := Z.

(** ** Payloads (the event records of the Slippi protocol) *)

(** [semver.Version] as [parsePayload] and [semver.MustParse] build it:
    no pre-release and no build part. *)
Record Version := mkVersion { Major : Z; Minor : Z; Patch : Z }.

(** [semver.Version.Compare] on versions without pre-release part. *)
Definition Version_Compare (v o : Version) : Z :=
  if negb (Major v =? Major o) then (if Major o <? Major v then 1 else -1)
  else if negb (Minor v =? Minor o) then (if Minor o <? Minor v then 1 else -1)
  else if negb (Patch v =? Patch o) then (if Patch o <? Patch v then 1 else -1)
  else 0.
Definition Version_GTE (v o : Version) : bool := 0 <=? Version_Compare v o.
Definition Version_LTE (v o : Version) : bool := Version_Compare v o <=? 0.

Record MessageSplitterPayload := mkMessageSplitterPayload {
  Data : list Z;
  DataLength : Z;
  InternalCommand : Z;
  LastMessage : bool }.

Record EventPayloadsPayload := mkEventPayloadsPayload {
  PayloadSize : Z;
  EP_PayloadSizes : gmap Z Z }.

(** [PlayerType] *)
Definition Human : Z := 0.
Definition CPU : Z := 1.
Definition Demo : Z := 2.
Definition Empty : Z := 3.

Record PlayerInfo := mkPlayerInfo {
  Index : Z;
  Port : Z;
  CharacterID : Z;
  PlayerType : Z;
  StockStartCount : Z;
  CostumeIndex : Z;
  TeamShade : Z;
  Handicap : Z;
  TeamID : Z;
  PlayerBitfield : Z;
  CPULevel : Z;
  OffenseRatio : float32;
  DefenseRatio : float32;
  ModelScale : float32;
  DashbackFix : Z;
  ShieldDropFix : Z;
  Nametag : list Z;
  DisplayName : list Z;
  ConnectCode : list Z;
  SlippiUID : list Z }.

Definition set_CharacterID (c : Z) (pl : PlayerInfo) : PlayerInfo :=
  mkPlayerInfo (Index pl) (Port pl) c (PlayerType pl) (StockStartCount pl)
    (CostumeIndex pl) (TeamShade pl) (Handicap pl) (TeamID pl)
    (PlayerBitfield pl) (CPULevel pl) (OffenseRatio pl) (DefenseRatio pl)
    (ModelScale pl) (DashbackFix pl) (ShieldDropFix pl) (Nametag pl)
    (DisplayName pl) (ConnectCode pl) (SlippiUID pl).

Record GameInfoBlock := mkGameInfoBlock {
  GameBitfield1 : Z;
  GameBitfield2 : Z;
  GameBitfield3 : Z;
  GameBitfield4 : Z;
  BombRain : Z;
  IsTeams : bool;
  ItemSpawnBehavior : Z;
  SelfDestructScoreValue : Z;
  Stage : Z;
  GameTimer : Z;
  ItemSpawnBitfield1 : Z;
  ItemSpawnBitfield2 : Z;
  ItemSpawnBitfield3 : Z;
  ItemSpawnBitfield4 : Z;
  ItemSpawnBitfield5 : Z;
  DamageRatio : float32 }.

Record GameStartPayload := mkGameStartPayload {
  GS_Version : Version;
  GS_GameInfoBlock : GameInfoBlock;
  GS_Players : list PlayerInfo;   (* [4]PlayerInfo *)
  GS_RandomSeed : Z;
  GS_PAL : bool;
  FrozenPS : bool;
  GS_MajorScene : Z;
  GS_MinorScene : Z;
  LanguageOption : Z }.

Record FrameUpdate := mkFrameUpdate {
  FrameNumber : Z;
  PlayerIndex : Z;
  IsFollower : bool;
  ActionStateID : Z;
  XPosition : float32;
  YPosition : float32;
  FacingDirection : float32;
  Percent : float32 }.

Record PreFrameUpdatePayload := mkPreFrameUpdatePayload {
  Pre_FrameUpdate : FrameUpdate;
  Pre_RandomSeed : Z;
  JoystickX : float32;
  JoystickY : float32;
  CStickX : float32;
  CStickY : float32;
  Trigger_ : float32;
  ProcessedButtons : Z;
  PhysicalButtons : Z;
  PhysicalLTrigger : float32;
  PhysicalRTrigger : float32;
  XAnalogUCF : Z }.

Record PostFrameUpdatePayload := mkPostFrameUpdatePayload {
  Post_FrameUpdate : FrameUpdate;
  InternalCharacterID : Z;
  ShieldSize : float32;
  LastHittingAttackID : Z;
  CurrentComboCount : Z;
  LastHitBy : Z;
  StocksRemaining : Z;
  ActionStateFrameCounter : float32;
  StateBitFlags1 : Z;
  StateBitFlags2 : Z;
  StateBitFlags3 : Z;
  StateBitFlags4 : Z;
  StateBitFlags5 : Z;
  MiscAS : float32;
  Airborne : bool;
  LastGroundID : Z;
  JumpsRemaining : Z;
  LCancelStatus : Z;
  HurtboxCollisionState : Z;
  SelfInducedAirXSpeed : float32;
  SelfInducedYSpeed : float32;
  AttackBasedXSpeed : float32;
  AttackBasedYSpeed : float32;
  SelfInducedGroundXSpeed : float32;
  HitlagFramesRemaining : float32;
  AnimationIndex : Z }.

(** The interface [FrameUpdatePayload]: its two implementations. *)
Inductive FrameUpdatePayload :=
| IsPre (u : PreFrameUpdatePayload)
| IsPost (u : PostFrameUpdatePayload).

Definition GetFrameUpdate (u : FrameUpdatePayload) : FrameUpdate :=
  match u with
  | IsPre u => Pre_FrameUpdate u
  | IsPost u => Post_FrameUpdate u
  end.

Record GameEndPayload := mkGameEndPayload {
  GameEndMethod : Z;
  LRASInitiator : Z }.

Record FrameStartPayload := mkFrameStartPayload {
  FS_FrameNumber : Z;
  FS_RandomSeed : Z;
  SceneFrameCounter : Z }.

Record ItemUpdatePayload := mkItemUpdatePayload {
  Item_FrameNumber : Z;
  TypeID : Z;
  State : Z;
  Item_FacingDirection : float32;
  XVelocity : float32;
  YVelocity : float32;
  Item_XPosition : float32;
  Item_YPosition : float32;
  DamageTaken : Z;
  ExpirationTimer : float32;
  SpawnID : Z;
  SamusMissileType : Z;
  PeachTurnipFace : Z;
  IsLaunched : Z;
  ChargedPower : Z;
  Owner : Z }.

Record FrameBookendPayload := mkFrameBookendPayload {
  FB_FrameNumber : Z;
  LatestFinalizedFrame : Z }.

(** A byte slice that outlives the call it was made in is kept as the array
    it is a view of, not as the bytes the array held: the array may be
    written again. The arrays in question are the payload buffers of a
    reader, one for each command byte of its payload-size table, and
    [bufref] names the buffer by that byte. *)
Definition bufref := Z.

(** [GeckoCodes] is the slice [parsePayload] was given, not a copy of it. *)
Record GeckoListPayload := mkGeckoListPayload { GeckoCodes : bufref }.

(** Command bytes. *)
Module Command.
Definition EventPayloads : Z := 0x35.
Definition GameStart : Z := 0x36.
Definition PreFrameUpdate : Z := 0x37.
Definition PostFrameUpdate : Z := 0x38.
Definition GameEnd : Z := 0x39.
Definition FrameStart : Z := 0x3A.
Definition ItemUpdate : Z := 0x3B.
Definition FrameBookend : Z := 0x3C.
Definition GeckoList : Z := 0x3D.
Definition MessageSplitter : Z := 0x10.
End Command.

(** The dynamic type held by [SlpEvent.Payload] (an [interface{}]). *)
Inductive EventPayload :=
| PLMessageSplitter (x : MessageSplitterPayload)
| PLEventPayloads (x : EventPayloadsPayload)
| PLGameStart (x : GameStartPayload)
| PLPreFrameUpdate (x : PreFrameUpdatePayload)
| PLPostFrameUpdate (x : PostFrameUpdatePayload)
| PLGameEnd (x : GameEndPayload)
| PLFrameStart (x : FrameStartPayload)
| PLItemUpdate (x : ItemUpdatePayload)
| PLFrameBookend (x : FrameBookendPayload)
| PLGeckoList (x : GeckoListPayload).

Record SlpEvent := mkSlpEvent {
  Ev_Command : Z;
  Ev_Payload : EventPayload }.

(** ** Errors

    A Go [error] built by [errors.New(fmt.Sprintf(format, args...))] is kept
    as its format (the constructor) and its arguments; two such errors are
    equal exactly when the formatted strings are. *)
Inductive error :=
| (** "latestFinalizedFrame should be within %d frames of %d" *)
  ErrRollbackWindow (maxRollback frameNumber : Z)
| (** "could not finalize frame %d of %d: missing %s-frame update for player %d" *)
  ErrMissingFrameUpdate (toFinalize frameNumber : Z) (missing : string) (player : Z)
| (** "unknown command: 0x%X" *)
  ErrUnknownCommand (command : Z)
| (** "replay had an invalid preamble: %X\n" *)
  ErrInvalidPreamble (preamble : list Z)
| (** "expected event payloads event, got: %X\n" *)
  ErrExpectedEventPayloads (got : Z)
| (** "failed to get length of replay data source" *)
  ErrSourceLength
| (** "failed to seek to start of replay" *)
  ErrSeekStart
| (** [io.EOF] *)
  EOF
| (** [io.ErrUnexpectedEOF] *)
  ErrUnexpectedEOF
| (** "bytes.Reader.Seek: negative position" *)
  ErrNegativePosition
| (** an error of the Shift-JIS transformer *)
  ErrTransform.

(** ** Parser state *)

Record SlpParserOpts := mkSlpParserOpts { Strict : bool }.

Inductive FrameUpdateType := Pre | Post.

Record FrameUpdates := mkFrameUpdates {
  FU_Pre : option PreFrameUpdatePayload;     (* *PreFrameUpdatePayload *)
  FU_Post : option PostFrameUpdatePayload }. (* *PostFrameUpdatePayload *)

(** A Go map value [map[uint8]FrameUpdates]: [None] is the nil map,
    [Some i] refers to the i-th map object allocated by [make]. *)
Definition mapref := option nat.

Record FrameEntry := mkFrameEntry {
  Players : mapref;
  Followers : mapref;
  Items : list ItemUpdatePayload;
  IsTransferComplete : bool }.

(** The zero value of [FrameEntry], which indexing [p.Frames] yields for a
    missing key. *)
Definition zeroFrameEntry : FrameEntry := mkFrameEntry None None [] false.

Record GameInfo := mkGameInfo {
  GI_Version : Version;
  Teams : bool;
  PAL : bool;
  GI_Stage : Z;
  GI_Players : list PlayerInfo;
  MajorScene : Z;
  MinorScene : Z }.

Inductive ParserEvent := Started | Frame | FinalizedFrame | RollbackFrame | Ended.

Record Rollbacks := mkRollbacks {
  R_Frames : gmap Z (list FrameEntry);
  Count : Z;
  Lengths : list Z;
  playerIndex : Z;
  lastFrameWasRollback : bool;
  currentRollbackLength : Z }.

(** What [Trigger] is given as payload. A [FrameEntry] carries no frame
    number of its own; the log keeps, next to it, the key of [p.Frames]
    it was read from, so that statements can speak of [Frame(n)],
    [FinalizedFrame(n)] and [RollbackFrame(n)]. *)
Inductive TriggerPayload :=
| TPGameInfo (g : option GameInfo)        (* p.gameInfo, a *GameInfo *)
| TPFrameEntry (key : Z) (f : FrameEntry)
| TPGameEnd (g : GameEndPayload).

Record SlpParser := mkSlpParser {
  Options : SlpParserOpts;
  Frames : gmap Z FrameEntry;
  P_Rollbacks : Rollbacks;
  gameInfo : option GameInfo;          (* *GameInfo *)
  P_GameEnd : option GameEndPayload;   (* *GameEndPayload *)
  latestFrameIndex : Z;
  lastFinalizedFrame : Z;
  gameInfoComplete : bool;
  (** the map objects allocated so far (the part of Go's heap the parser
      reaches through [FrameEntry] values) *)
  maps : list (gmap Z FrameUpdates);
  (** the log of [Trigger] calls, oldest first *)
  emitted : list (ParserEvent * TriggerPayload) }.

Definition set_Frames (f : gmap Z FrameEntry → gmap Z FrameEntry) (p : SlpParser) :=
  mkSlpParser (Options p) (f (Frames p)) (P_Rollbacks p) (gameInfo p) (P_GameEnd p)
    (latestFrameIndex p) (lastFinalizedFrame p) (gameInfoComplete p) (maps p) (emitted p).
Definition set_Rollbacks (r : Rollbacks) (p : SlpParser) :=
  mkSlpParser (Options p) (Frames p) r (gameInfo p) (P_GameEnd p)
    (latestFrameIndex p) (lastFinalizedFrame p) (gameInfoComplete p) (maps p) (emitted p).
Definition set_gameInfo (g : option GameInfo) (p : SlpParser) :=
  mkSlpParser (Options p) (Frames p) (P_Rollbacks p) g (P_GameEnd p)
    (latestFrameIndex p) (lastFinalizedFrame p) (gameInfoComplete p) (maps p) (emitted p).
Definition set_GameEnd (g : option GameEndPayload) (p : SlpParser) :=
  mkSlpParser (Options p) (Frames p) (P_Rollbacks p) (gameInfo p) g
    (latestFrameIndex p) (lastFinalizedFrame p) (gameInfoComplete p) (maps p) (emitted p).
Definition set_latestFrameIndex (n : Z) (p : SlpParser) :=
  mkSlpParser (Options p) (Frames p) (P_Rollbacks p) (gameInfo p) (P_GameEnd p)
    n (lastFinalizedFrame p) (gameInfoComplete p) (maps p) (emitted p).
Definition set_lastFinalizedFrame (n : Z) (p : SlpParser) :=
  mkSlpParser (Options p) (Frames p) (P_Rollbacks p) (gameInfo p) (P_GameEnd p)
    (latestFrameIndex p) n (gameInfoComplete p) (maps p) (emitted p).
Definition set_gameInfoComplete (b : bool) (p : SlpParser) :=
  mkSlpParser (Options p) (Frames p) (P_Rollbacks p) (gameInfo p) (P_GameEnd p)
    (latestFrameIndex p) (lastFinalizedFrame p) b (maps p) (emitted p).
Definition set_maps (f : list (gmap Z FrameUpdates) → list (gmap Z FrameUpdates))
    (p : SlpParser) :=
  mkSlpParser (Options p) (Frames p) (P_Rollbacks p) (gameInfo p) (P_GameEnd p)
    (latestFrameIndex p) (lastFinalizedFrame p) (gameInfoComplete p) (f (maps p)) (emitted p).
Definition set_emitted (f : list (ParserEvent * TriggerPayload) → list (ParserEvent * TriggerPayload))
    (p : SlpParser) :=
  mkSlpParser (Options p) (Frames p) (P_Rollbacks p) (gameInfo p) (P_GameEnd p)
    (latestFrameIndex p) (lastFinalizedFrame p) (gameInfoComplete p) (maps p) (f (emitted p)).

(** ** The monad of parser methods *)

Inductive outcome (A : Type) : Type :=
| Ret (a : A) (p : SlpParser)   (* the call returned [a] *)
| Panic (p : SlpParser).        (* the call panicked in state [p] *)
Arguments Ret {A} a p.
Arguments Panic {A} p.

Definition M (A : Type) : Type := SlpParser → outcome A.

Definition ret {A} (a : A) : M A := λ p, Ret a p.
Definition bind {A B} (m : M A) (k : A → M B) : M B :=
  λ p, match m p with
       | Ret a p' => k a p'
       | Panic p' => Panic p'
       end.
Definition get : M SlpParser := λ p, Ret p p.
Definition modify (f : SlpParser → SlpParser) : M unit := λ p, Ret tt (f p).
Definition panic {A} : M A := λ p, Panic p.

Declare Scope go_scope.
Delimit Scope go_scope with go.
Notation "x <- m ;; k" := (bind m (λ x, k))
  (at level 100, m at next level, right associativity) : go_scope.
Notation "m ;;; k" := (bind m (λ _, k))
  (at level 100, right associativity) : go_scope.
Local Open Scope go_scope.

Definition final_state {A} (o : outcome A) : SlpParser :=
  match o with Ret _ p => p | Panic p => p end.

Definition returned {A} (o : outcome A) : option A :=
  match o with Ret a _ => Some a | Panic _ => None end.

(** *** Map objects *)

(** [make(map[uint8]FrameUpdates, 0)] *)
Definition makeMap : M mapref :=
  λ p, Ret (Some (length (maps p))) (set_maps (λ ms, ms ++ [∅]) p).

(** The contents of a map value in a given store; a nil map reads as empty. *)
Definition mapContents (ms : list (gmap Z FrameUpdates)) (r : mapref) : gmap Z FrameUpdates :=
  match r with
  | None => ∅
  | Some i => default ∅ (ms !! i)
  end.

(** [v, ok := m[k]] *)
Definition mapGet (r : mapref) (k : Z) : M (option FrameUpdates) :=
  λ p, Ret (mapContents (maps p) r !! k) p.

(** [m[k] = v]: assignment to an entry of a nil map panics. *)
Definition mapSet (r : mapref) (k : Z) (v : FrameUpdates) : M unit :=
  match r with
  | None => panic
  | Some i => λ p,
      match maps p !! i with
      | Some m => Ret tt (set_maps (λ ms, <[i := <[k := v]> m]> ms) p)
      | None => Panic p
      end
  end.

(** ** Rollback ledger (parser.go, [Rollbacks.checkIfRollbackFrame]) *)

Definition set_playerIndex (i : Z) (r : Rollbacks) : Rollbacks :=
  mkRollbacks (R_Frames r) (Count r) (Lengths r) i
    (lastFrameWasRollback r) (currentRollbackLength r).

(** [frame] is the pointer argument [*FrameEntry]: [None] is nil. *)
Definition checkIfRollbackFrame (frameIndex : Z) (frame : option FrameEntry)
    (playerIdx : Z) (r : Rollbacks) : bool * Rollbacks :=
  let record (r : Rollbacks) : bool * Rollbacks :=
    let r' :=
      match frame with
      | Some f =>
          let frames' :=
            match R_Frames r !! frameIndex with
            | None => <[frameIndex := [f]]> (R_Frames r)
            | Some frames => <[frameIndex := frames ++ [f]]> (R_Frames r)
            end in
          mkRollbacks frames' (int (Count r + 1)) (Lengths r) (playerIndex r)
            true (int (currentRollbackLength r + 1))
      | None =>
          if lastFrameWasRollback r
          then mkRollbacks (R_Frames r) (Count r)
                 (Lengths r ++ [currentRollbackLength r]) (playerIndex r) false 0
          else r
      end in
    (lastFrameWasRollback r', r') in
  if playerIndex r =? -1 then record (set_playerIndex (int8 playerIdx) r)
  else if negb (playerIndex r =? int8 playerIdx) then (false, r)
  else record r.

(** ** The parser (parser.go) *)

Definition MaxRollbackFrames : Z := 7.

Definition newRollbacks : Rollbacks := mkRollbacks ∅ 0 [] (-1) false 0.

(** [NewSlpParser]; no handler is attached and nothing has been emitted. *)
Definition NewSlpParser (options : SlpParserOpts) : SlpParser :=
  mkSlpParser options ∅ newRollbacks None None (-124) (-124) false [] [].

(** [Reset] keeps the options and the handlers (here: what they were sent). *)
Definition Reset : M unit :=
  modify (λ p, mkSlpParser (Options p) ∅ newRollbacks None None (-124) (-124) false
                 (maps p) (emitted p)).

Definition GetPlayableFrameCount (p : SlpParser) : Z :=
  if latestFrameIndex p <? -39 then 0 else int32 (latestFrameIndex p + 39).

(** [Trigger]: the payload goes to every handler channel of the event. *)
Definition Trigger (event : ParserEvent) (payload : TriggerPayload) : M unit :=
  modify (set_emitted (λ l, l ++ [(event, payload)])).

Definition completeGameInfo : M unit :=
  p <- get ;;
  if gameInfoComplete p then ret tt
  else
    modify (set_gameInfoComplete true) ;;;
    p <- get ;;
    Trigger Started (TPGameInfo (gameInfo p)).

Definition getFrame (frameNumber : Z) : M FrameEntry :=
  p <- get ;;
  match Frames p !! frameNumber with
  | Some frame => ret frame
  | None =>
      players <- makeMap ;;
      followers <- makeMap ;;
      ret (mkFrameEntry players followers [] false)
  end.

(** The strict-mode check of one frame against the players of the game
    info: the body of [for _, player := range p.gameInfo.Players]. The
    result is the error the loop returns with, if any. *)
Fixpoint checkPlayers (ms : list (gmap Z FrameUpdates)) (frame : FrameEntry)
    (toFinalize frameNumber : Z) (nPlayers : nat) (players : list PlayerInfo)
    : option error :=
  match players with
  | [] => None
  | player :: rest =>
      match mapContents ms (Players frame) !! Index player with
      | None =>
          if (2 <? Z.of_nat nPlayers)
          then checkPlayers ms frame toFinalize frameNumber nPlayers rest
          else Some (ErrMissingFrameUpdate toFinalize frameNumber "pre" (Index player))
      | Some playerFrameInfo =>
          match FU_Pre playerFrameInfo, FU_Post playerFrameInfo with
          | Some _, Some _ =>
              checkPlayers ms frame toFinalize frameNumber nPlayers rest
          | Some _, None =>
              Some (ErrMissingFrameUpdate toFinalize frameNumber "post" (Index player))
          | None, _ =>
              Some (ErrMissingFrameUpdate toFinalize frameNumber "pre" (Index player))
          end
      end
  end.

(** The loop of [finalizeFrames]; [fuel] bounds the number of iterations.
    Every iteration that does not return raises [lastFinalizedFrame] by
    one, so [frameNumber - lastFinalizedFrame] iterations are enough
    ([finalizeLoop_fuel]). *)
Fixpoint finalizeLoop (fuel : nat) (frameNumber : Z) : M (option error) :=
  p <- get ;;
  if lastFinalizedFrame p <? frameNumber then
    match fuel with
    | O => ret None
    | S fuel' =>
        let toFinalize := int32 (lastFinalizedFrame p + 1) in
        match Frames p !! toFinalize with
        | None => ret None
        | Some frame =>
            check <-
              (if Strict (Options p) then
                 match gameInfo p with
                 | None => panic
                 | Some gi =>
                     ret (checkPlayers (maps p) frame toFinalize frameNumber
                            (length (GI_Players gi)) (GI_Players gi))
                 end
               else ret None) ;;
            match check with
            | Some err => ret (Some err)
            | None =>
                Trigger FinalizedFrame (TPFrameEntry toFinalize frame) ;;;
                modify (set_lastFinalizedFrame toFinalize) ;;;
                finalizeLoop fuel' frameNumber
            end
        end
    end
  else ret None.

Definition finalizeFrames (frameNumber : Z) : M (option error) :=
  p <- get ;;
  finalizeLoop (Z.to_nat (frameNumber - lastFinalizedFrame p)) frameNumber.

Definition handleGameStart (payload : GameStartPayload) : M unit :=
  let players := filter (λ player, PlayerType player ≠ Empty) (GS_Players payload) in
  modify (set_gameInfo (Some (mkGameInfo
    (GS_Version payload)
    (IsTeams (GS_GameInfoBlock payload))
    (GS_PAL payload)
    (Stage (GS_GameInfoBlock payload))
    players
    (GS_MajorScene payload)
    (GS_MinorScene payload)))) ;;;
  if Version_GTE (GS_Version payload) (mkVersion 1 6 0)
  then completeGameInfo
  else ret tt.

(** The shared tail of [handleFrameUpdate]: install the update into the
    entry of [playerIdx] in the map [m] ([frame.Players] or
    [frame.Followers]). The type assertions [payload.(PreFrameUpdatePayload)]
    and [payload.(PostFrameUpdatePayload)] panic on the other dynamic type. *)
Definition installUpdate (m : mapref) (playerIdx : Z) (updateType : FrameUpdateType)
    (payload : FrameUpdatePayload) : M unit :=
  found <- mapGet m playerIdx ;;
  let entry := default (mkFrameUpdates None None) found in
  entry' <-
    match updateType, payload with
    | Pre, IsPre u => ret (mkFrameUpdates (Some u) (FU_Post entry))
    | Post, IsPost u => ret (mkFrameUpdates (FU_Pre entry) (Some u))
    | _, _ => panic
    end ;;
  mapSet m playerIdx entry'.

Definition set_IsTransferComplete (b : bool) (f : FrameEntry) : FrameEntry :=
  mkFrameEntry (Players f) (Followers f) (Items f) b.

Definition handleFrameUpdate (updateType : FrameUpdateType)
    (payload : FrameUpdatePayload) : M (option error) :=
  let frameUpdate := GetFrameUpdate payload in
  let frameNumber := FrameNumber frameUpdate in
  let isFollower := IsFollower frameUpdate in
  let playerIdx := PlayerIndex frameUpdate in
  frame <- getFrame frameNumber ;;
  modify (set_latestFrameIndex frameNumber) ;;;
  (match updateType, isFollower with
   | Pre, false =>
       p <- get ;;
       let currentFrame := default zeroFrameEntry (Frames p !! frameNumber) in
       let '(isRollback, r) :=
         checkIfRollbackFrame frameNumber (Some currentFrame) playerIdx (P_Rollbacks p) in
       modify (set_Rollbacks r) ;;;
       if isRollback then Trigger RollbackFrame (TPFrameEntry frameNumber currentFrame)
       else ret tt
   | _, _ => ret tt
   end) ;;;
  installUpdate (if isFollower then Followers frame else Players frame)
    playerIdx updateType payload ;;;
  modify (set_Frames <[frameNumber := frame]>) ;;;
  p <- get ;;
  (* emit frame here if file is from before frame bookending existed *)
  if match gameInfo p with
     | Some gi => Version_LTE (GI_Version gi) (mkVersion 2 2 0)
     | None => false
     end
  then
    p <- get ;;
    Trigger Frame (TPFrameEntry frameNumber (default zeroFrameEntry (Frames p !! frameNumber))) ;;;
    finalizeFrames (int32 (frameNumber - 1))
  else
    modify (set_Frames <[frameNumber := set_IsTransferComplete false frame]>) ;;;
    ret None.

(** The patch loop of [handlePostFrameUpdate] over [p.gameInfo.Players]. *)
Definition patchCharacters (payload : PostFrameUpdatePayload)
    (players : list PlayerInfo) : list PlayerInfo :=
  map (λ player,
         if Index player =? PlayerIndex (Post_FrameUpdate payload) then
           if InternalCharacterID payload =? 0x7 then set_CharacterID 0x13 player
           else if InternalCharacterID payload =? 0x13 then set_CharacterID 0x12 player
           else player
         else player) players.

Definition set_GI_Players (players : list PlayerInfo) (gi : GameInfo) : GameInfo :=
  mkGameInfo (GI_Version gi) (Teams gi) (PAL gi) (GI_Stage gi) players
    (MajorScene gi) (MinorScene gi).

Definition handlePostFrameUpdate (payload : PostFrameUpdatePayload) : M (option error) :=
  err <- handleFrameUpdate Post (IsPost payload) ;;
  match err with
  | Some e => ret (Some e)
  | None =>
      p <- get ;;
      if gameInfoComplete p then ret None
      else
        (if FrameNumber (Post_FrameUpdate payload) <=? -123 then
           match gameInfo p with
           | None => panic
           | Some gi =>
               modify (set_gameInfo
                         (Some (set_GI_Players (patchCharacters payload (GI_Players gi)) gi)))
           end
         else ret tt) ;;;
        (if -123 <? FrameNumber (Post_FrameUpdate payload) then completeGameInfo
         else ret tt) ;;;
        ret None
  end.

Definition handleGameEnd (payload : GameEndPayload) : M (option error) :=
  p <- get ;;
  err <-
    (if (-124 <? latestFrameIndex p) && negb (latestFrameIndex p =? lastFinalizedFrame p)
     then finalizeFrames (latestFrameIndex p)
     else ret None) ;;
  modify (set_GameEnd (Some payload)) ;;;
  Trigger Ended (TPGameEnd payload) ;;;
  ret err.

Definition set_Items (items : list ItemUpdatePayload) (f : FrameEntry) : FrameEntry :=
  mkFrameEntry (Players f) (Followers f) items (IsTransferComplete f).

Definition handleItemUpdate (payload : ItemUpdatePayload) : M unit :=
  frame <- getFrame (Item_FrameNumber payload) ;;
  modify (set_Frames
            <[Item_FrameNumber payload := set_Items (Items frame ++ [payload]) frame]>).

Definition handleFrameBookend (payload : FrameBookendPayload) : M (option error) :=
  let latestFinalizedFrame := LatestFinalizedFrame payload in
  let frameNumber := FB_FrameNumber payload in
  frame <- getFrame frameNumber ;;
  let frame := set_IsTransferComplete true frame in
  modify (set_Frames <[frameNumber := frame]>) ;;;
  Trigger Frame (TPFrameEntry frameNumber frame) ;;;
  p <- get ;;
  match gameInfo p with
  | None => panic
  | Some gi =>
      let validLatestFrame := MajorScene gi =? 0x8 in
      if validLatestFrame && (-123 <=? latestFinalizedFrame) then
        if Strict (Options p) && (latestFinalizedFrame <? int32 (frameNumber - MaxRollbackFrames))
        then ret (Some (ErrRollbackWindow MaxRollbackFrames frameNumber))
        else finalizeFrames latestFinalizedFrame
      else finalizeFrames (int32 (frameNumber - MaxRollbackFrames))
  end.

(** [handleEvent]: the switch on the command, each case with its type
    assertion on the payload. *)
Definition handleEvent (event : SlpEvent) : M (option error) :=
  let cmd := Ev_Command event in
  if cmd =? Command.GameStart then
    match Ev_Payload event with
    | PLGameStart x => handleGameStart x ;;; ret None
    | _ => panic
    end
  else if cmd =? Command.PreFrameUpdate then
    match Ev_Payload event with
    | PLPreFrameUpdate x => handleFrameUpdate Pre (IsPre x)
    | _ => panic
    end
  else if cmd =? Command.PostFrameUpdate then
    match Ev_Payload event with
    | PLPostFrameUpdate x => handlePostFrameUpdate x
    | _ => panic
    end
  else if cmd =? Command.GameEnd then
    match Ev_Payload event with
    | PLGameEnd x => handleGameEnd x
    | _ => panic
    end
  else if cmd =? Command.ItemUpdate then
    match Ev_Payload event with
    | PLItemUpdate x => handleItemUpdate x ;;; ret None
    | _ => panic
    end
  else if cmd =? Command.FrameBookend then
    match Ev_Payload event with
    | PLFrameBookend x => handleFrameBookend x
    | _ => panic
    end
  else ret None.

(** What the reader sends on the channel: [Event] and [Error] are both
    pointers/interfaces that may be nil. *)
Record SlpEventResult := mkSlpEventResult {
  Event : option SlpEvent;
  Error : option error }.

(** [ParseReplay] over the sequence of results received from the channel
    until it is closed. Draining the channel ([flushChannel]) leaves the
    parser as it is. *)
Fixpoint ParseReplay (eventResults : list SlpEventResult) : M (option error) :=
  match eventResults with
  | [] => ret None
  | eventResult :: rest =>
      match Error eventResult with
      | Some e => ret (Some e)
      | None =>
          match Event eventResult with
          | None => panic                      (* [*eventResult.Event] *)
          | Some event =>
              err <- handleEvent event ;;
              match err with
              | Some e => ret (Some e)
              | None => ParseReplay rest
              end
          end
      end
  end.

(** [GetLatestFrame] *)
Definition GetLatestFrame (p : SlpParser) : FrameEntry :=
  let frameIndex := Z.max (latestFrameIndex p) (-123) in
  let frameIndex :=
    match P_GameEnd p with
    | Some _ => int32 (frameIndex - 1)
    | None => frameIndex
    end in
  default zeroFrameEntry (Frames p !! frameIndex).

(** [GetGameInfo] *)
Definition GetGameInfo (p : SlpParser) : option GameInfo * bool :=
  (gameInfo p, gameInfoComplete p).

(** ** Scenario inputs

    Payloads with the fields the parser looks at set and every other field
    zero, and the events carrying them. *)

Definition frameUpdate (frame player : Z) (follower : bool) : FrameUpdate :=
  mkFrameUpdate frame player follower 0 0 0 0 0.

Definition preUpdate (frame player seed : Z) : PreFrameUpdatePayload :=
  mkPreFrameUpdatePayload (frameUpdate frame player false) seed 0 0 0 0 0 0 0 0 0 0.

Definition postUpdate (frame player internalChar : Z) : PostFrameUpdatePayload :=
  mkPostFrameUpdatePayload (frameUpdate frame player false) internalChar
    0 0 0 0 0 0 0 0 0 0 0 0 false 0 0 0 0 0 0 0 0 0 0 0.

Definition playerInfo (index ptype character : Z) : PlayerInfo :=
  mkPlayerInfo index 1 character ptype 4 0 0 0 0 0 0 0 0 0 0 0 [] [] [] [].

Definition gameStart (version : Version) (players : list PlayerInfo)
    (majorScene : Z) : GameStartPayload :=
  mkGameStartPayload version
    (mkGameInfoBlock 0 0 0 0 0 false 0 0 0 0 0 0 0 0 0 0)
    players 0 false false majorScene 0 0.

Definition evGameStart (x : GameStartPayload) : SlpEvent :=
  mkSlpEvent Command.GameStart (PLGameStart x).
Definition evPre (x : PreFrameUpdatePayload) : SlpEvent :=
  mkSlpEvent Command.PreFrameUpdate (PLPreFrameUpdate x).
Definition evPost (x : PostFrameUpdatePayload) : SlpEvent :=
  mkSlpEvent Command.PostFrameUpdate (PLPostFrameUpdate x).
Definition evGameEnd (x : GameEndPayload) : SlpEvent :=
  mkSlpEvent Command.GameEnd (PLGameEnd x).
Definition evItem (x : ItemUpdatePayload) : SlpEvent :=
  mkSlpEvent Command.ItemUpdate (PLItemUpdate x).
Definition evBookend (frame latestFinalized : Z) : SlpEvent :=
  mkSlpEvent Command.FrameBookend (PLFrameBookend (mkFrameBookendPayload frame latestFinalized)).

(** The results a reader sends for a sequence of events decoded without
    error. *)
Definition okResults (events : list SlpEvent) : list SlpEventResult :=
  map (λ e, mkSlpEventResult (Some e) None) events.

(** One human player in slot 0 and three empty slots. *)
Definition onePlayer (character : Z) : list PlayerInfo :=
  [playerInfo 0 Human character; playerInfo 0 Empty 0;
   playerInfo 0 Empty 0; playerInfo 0 Empty 0].

(** ** The byte source (dolphin_connection.go, [SlpSource])

    The in-memory flavour: an [io.ReadSeeker] over a [bytes.Reader]. The
    reader object is shared by every copy of the [SlpSource] that wraps it;
    the code below passes the one source along, so its offset is threaded. *)

Record SlpSource := mkSlpSource {
  s_bytes : list Z;    (* the bytes of the [bytes.Reader] *)
  s_off : Z;           (* its read offset *)
  s_length : Z }.      (* the cached length, -1 before the first [GetLength] *)

Definition NewSlpSourceBytes (b : list Z) : SlpSource := mkSlpSource b 0 (-1).

Definition set_off (off : Z) (s : SlpSource) : SlpSource :=
  mkSlpSource (s_bytes s) off (s_length s).

(** [bytes.Reader.Len]: the number of unread bytes. *)
Definition Reader_Len (s : SlpSource) : Z :=
  if Z.of_nat (length (s_bytes s)) <=? s_off s then 0
  else Z.of_nat (length (s_bytes s)) - s_off s.

Definition GetLength (recalculate : bool) (s : SlpSource) : Z * SlpSource :=
  if recalculate || (s_length s =? -1)
  then (Reader_Len s, mkSlpSource (s_bytes s) (s_off s) (Reader_Len s))
  else (s_length s, s).

(** [bytes.Reader.Read(buf)]: copies as many bytes as are left and fit,
    [io.EOF] when none is left. The result is the buffer after the call,
    the number of bytes read, the error and the source. *)
Definition Read (buf : list Z) (s : SlpSource) : list Z * Z * option error * SlpSource :=
  if Z.of_nat (length (s_bytes s)) <=? s_off s then (buf, 0, Some EOF, s)
  else
    let avail := drop (Z.to_nat (s_off s)) (s_bytes s) in
    let n := Nat.min (length buf) (length avail) in
    (take n avail ++ drop n buf, Z.of_nat n, None, set_off (s_off s + Z.of_nat n) s).

(** [bytes.Reader.Seek(offset, io.SeekStart)] and [(offset, io.SeekCurrent)]. *)
Definition SeekStart (offset : Z) (s : SlpSource) : option error * SlpSource :=
  if offset <? 0 then (Some ErrNegativePosition, s) else (None, set_off offset s).
Definition SeekCurrent (offset : Z) (s : SlpSource) : option error * SlpSource :=
  if s_off s + offset <? 0 then (Some ErrNegativePosition, s)
  else (None, set_off (s_off s + offset) s).

(** ** Payload decoding (dolphin_connection.go, [parsePayload])

    A decoder returns a value, returns an error, or panics (an index or a
    slice bound out of range). *)

Inductive dres (A : Type) : Type :=
| DOk (a : A)
| DErr (e : error)
| DPanic.
Arguments DOk {A} a.
Arguments DErr {A} e.
Arguments DPanic {A}.

Definition dbind {A B} (m : dres A) (k : A → dres B) : dres B :=
  match m with
  | DOk a => k a
  | DErr e => DErr e
  | DPanic => DPanic
  end.

Declare Scope dec_scope.
Delimit Scope dec_scope with dec.
Notation "x <~ m ;; k" := (dbind m (λ x, k))
  (at level 100, m at next level, right associativity) : dec_scope.

(** [b[i]] *)
Definition at_ (b : list Z) (i : Z) : dres Z :=
  if i <? 0 then DPanic
  else match b !! Z.to_nat i with
       | Some x => DOk x
       | None => DPanic
       end.

(** [b[lo:hi]] of a slice whose capacity is its length *)
Definition slice (b : list Z) (lo hi : Z) : dres (list Z) :=
  if (0 <=? lo) && (lo <=? hi) && (hi <=? Z.of_nat (length b))
  then DOk (take (Z.to_nat (hi - lo)) (drop (Z.to_nat lo) b))
  else DPanic.

(** Big-endian value of a byte string. *)
Definition beZ (b : list Z) : Z := fold_left (λ acc x, acc * 256 + x) b 0.

(** [binary.BigEndian.Uint16] and [Uint32]: they index the last byte they
    need first, and panic when it is missing. *)
Definition Uint16 (b : list Z) : dres Z :=
  if (length b <? 2)%nat then DPanic else DOk (beZ (take 2 b)).
Definition Uint32 (b : list Z) : dres Z :=
  if (length b <? 4)%nat then DPanic else DOk (beZ (take 4 b)).

(** [readInt]: [binary.Read] of an [int32] from a buffer over [b]. *)
Definition readInt (b : list Z) : dres Z :=
  if (length b =? 0)%nat then DErr EOF
  else if (length b <? 4)%nat then DErr ErrUnexpectedEOF
  else DOk (int32 (beZ (take 4 b))).

(** [readFloat]: the bits given to [math.Float32frombits]. *)
Definition readFloat (b : list Z) : dres float32 := Uint32 b.

Fixpoint nullTerminate (b : list Z) : list Z :=
  match b with
  | [] => []
  | x :: rest => if x =? 0 then [] else x :: nullTerminate rest
  end.

Definition u16At (b : list Z) (lo : Z) : dres Z :=
  (s <~ slice b lo (lo + 2) ;; Uint16 s)%dec.
Definition u32At (b : list Z) (lo : Z) : dres Z :=
  (s <~ slice b lo (lo + 4) ;; Uint32 s)%dec.
Definition f32At (b : list Z) (lo : Z) : dres float32 :=
  (s <~ slice b lo (lo + 4) ;; readFloat s)%dec.
Definition i32At (b : list Z) (lo : Z) : dres Z :=
  (s <~ slice b lo (lo + 4) ;; readInt s)%dec.
Definition boolAt (b : list Z) (i : Z) : dres bool :=
  (x <~ at_ b i ;; DOk (negb (x =? 0)))%dec.
Definition i8At (b : list Z) (i : Z) : dres Z :=
  (x <~ at_ b i ;; DOk (int8 x))%dec.

Section Decoder.

(** [japanese.ShiftJIS.NewDecoder().Transform(dst, src, true)] of
    golang.org/x/text, which is not part of the repository: from the
    destination buffer and the source bytes, the destination buffer after
    the call and the error. *)
Variable Transform : list Z → list Z → list Z * option error.

Local Open Scope dec_scope.

Definition decodeShiftJIS (b : list Z) : dres (list Z) :=
  let dst := replicate 128 0 in
  let '(dst, err) := Transform dst b in
  match err with
  | Some e => DErr e
  | None => DOk (nullTerminate dst)
  end.

(** The closure [getPlayerData] of the [GameStart] case. *)
Definition getPlayerData (payloadBytes : list Z) (playerIdx : Z) : dres PlayerInfo :=
  let nametagOffset := 0x10 * playerIdx in
  nametagBytes <~ slice payloadBytes (0x160 + nametagOffset) (0x170 + nametagOffset) ;;
  nametag <~ decodeShiftJIS nametagBytes ;;
  let displayNameOffset := 0x1F * playerIdx in
  displayNameBytes <~
    slice payloadBytes (0x1A4 + displayNameOffset) (0x1C3 + displayNameOffset) ;;
  displayName <~ decodeShiftJIS displayNameBytes ;;
  let connectCodeOffset := 0xA * playerIdx in
  connectCodeBytes <~
    slice payloadBytes (0x220 + connectCodeOffset) (0x22B + connectCodeOffset) ;;
  connectCode <~ decodeShiftJIS connectCodeBytes ;;
  let gameInfoOffset := 0x24 * playerIdx in
  let slippiUIDOffset := 0x1D * playerIdx in
  let fixOffset := 0x8 * playerIdx in
  characterID <~ at_ payloadBytes (0x64 + gameInfoOffset) ;;
  playerType <~ at_ payloadBytes (0x65 + gameInfoOffset) ;;
  stockStartCount <~ at_ payloadBytes (0x66 + gameInfoOffset) ;;
  costumeIndex <~ at_ payloadBytes (0x67 + gameInfoOffset) ;;
  teamShade <~ at_ payloadBytes (0x6B + gameInfoOffset) ;;
  handicap <~ at_ payloadBytes (0x6C + gameInfoOffset) ;;
  teamID <~ at_ payloadBytes (0x6D + gameInfoOffset) ;;
  playerBitfield <~ at_ payloadBytes (0x70 + gameInfoOffset) ;;
  cpuLevel <~ at_ payloadBytes (0x73 + gameInfoOffset) ;;
  offenseRatio <~ f32At payloadBytes (0x7C + gameInfoOffset) ;;
  defenseRatio <~ f32At payloadBytes (0x80 + gameInfoOffset) ;;
  modelScale <~ f32At payloadBytes (0x84 + gameInfoOffset) ;;
  dashbackFix <~ u32At payloadBytes (0x140 + fixOffset) ;;
  shieldDropFix <~ u32At payloadBytes (0x144 + fixOffset) ;;
  slippiUID <~ slice payloadBytes (0x248 + slippiUIDOffset) (0x265 + slippiUIDOffset) ;;
  DOk (mkPlayerInfo 0 1 characterID playerType stockStartCount costumeIndex
         teamShade handicap teamID playerBitfield cpuLevel offenseRatio
         defenseRatio modelScale dashbackFix shieldDropFix nametag displayName
         connectCode (nullTerminate slippiUID)).

(** The loop of the [EventPayloads] case; [position] is a [byte], so
    [position + 1] and [position + 3] wrap at 256. *)
Fixpoint parseSizes (fuel : nat) (payloadBytes : list Z) (payloadsLength position : Z)
    (sizes : gmap Z Z) : dres (gmap Z Z) :=
  if position <? payloadsLength then
    match fuel with
    | O => DOk sizes
    | S fuel' =>
        key <~ at_ payloadBytes position ;;
        s <~ slice payloadBytes (uint8 (position + 1)) (uint8 (position + 3)) ;;
        size <~ Uint16 s ;;
        parseSizes fuel' payloadBytes payloadsLength (uint8 (position + 3))
          (<[key := size]> sizes)
    end
  else DOk sizes.

Definition parseGameStart (payloadBytes : list Z) : dres EventPayload :=
  p0 <~ getPlayerData payloadBytes 0 ;;
  p1 <~ getPlayerData payloadBytes 1 ;;
  p2 <~ getPlayerData payloadBytes 2 ;;
  p3 <~ getPlayerData payloadBytes 3 ;;
  major <~ at_ payloadBytes 0 ;;
  minor <~ at_ payloadBytes 1 ;;
  patch <~ at_ payloadBytes 2 ;;
  gameBitfield1 <~ at_ payloadBytes 0x4 ;;
  gameBitfield2 <~ at_ payloadBytes 0x5 ;;
  gameBitfield3 <~ at_ payloadBytes 0x6 ;;
  gameBitfield4 <~ at_ payloadBytes 0x7 ;;
  bombRain <~ at_ payloadBytes 0xA ;;
  isTeams <~ boolAt payloadBytes 0xC ;;
  itemSpawnBehavior <~ i8At payloadBytes 0xF ;;
  selfDestructScoreValue <~ i8At payloadBytes 0x10 ;;
  stage <~ u16At payloadBytes 0x12 ;;
  gameTimer <~ u32At payloadBytes 0x14 ;;
  itemSpawnBitfield1 <~ at_ payloadBytes 0x27 ;;
  itemSpawnBitfield2 <~ at_ payloadBytes 0x28 ;;
  itemSpawnBitfield3 <~ at_ payloadBytes 0x29 ;;
  itemSpawnBitfield4 <~ at_ payloadBytes 0x2A ;;
  itemSpawnBitfield5 <~ at_ payloadBytes 0x2B ;;
  damageRatio <~ f32At payloadBytes 0x34 ;;
  randomSeed <~ u32At payloadBytes 0x13C ;;
  pal <~ boolAt payloadBytes 0x1A0 ;;
  frozenPS <~ boolAt payloadBytes 0x1A1 ;;
  minorScene <~ at_ payloadBytes 0x1A2 ;;
  majorScene <~ at_ payloadBytes 0x1A3 ;;
  languageOption <~ at_ payloadBytes 0x2BC ;;
  DOk (PLGameStart (mkGameStartPayload
    (mkVersion major minor patch)
    (mkGameInfoBlock gameBitfield1 gameBitfield2 gameBitfield3 gameBitfield4
       bombRain isTeams itemSpawnBehavior selfDestructScoreValue stage gameTimer
       itemSpawnBitfield1 itemSpawnBitfield2 itemSpawnBitfield3
       itemSpawnBitfield4 itemSpawnBitfield5 damageRatio)
    [p0; p1; p2; p3] randomSeed pal frozenPS majorScene minorScene languageOption)).

Definition parsePreFrameUpdate (payloadBytes : list Z) : dres EventPayload :=
  frameNumber <~ i32At payloadBytes 0x0 ;;
  playerIdx <~ at_ payloadBytes 0x4 ;;
  isFollower <~ boolAt payloadBytes 0x5 ;;
  actionStateID <~ u16At payloadBytes 0xA ;;
  xPosition <~ f32At payloadBytes 0xC ;;
  yPosition <~ f32At payloadBytes 0x10 ;;
  facingDirection <~ f32At payloadBytes 0x14 ;;
  percent <~ f32At payloadBytes 0x3B ;;
  randomSeed <~ u32At payloadBytes 0x6 ;;
  joystickX <~ f32At payloadBytes 0x18 ;;
  joystickY <~ f32At payloadBytes 0x1C ;;
  cStickX <~ f32At payloadBytes 0x20 ;;
  cStickY <~ f32At payloadBytes 0x24 ;;
  trigger <~ f32At payloadBytes 0x28 ;;
  processedButtons <~ u32At payloadBytes 0x2C ;;
  physicalButtons <~ u16At payloadBytes 0x30 ;;
  physicalLTrigger <~ f32At payloadBytes 0x32 ;;
  physicalRTrigger <~ f32At payloadBytes 0x36 ;;
  xAnalogUCF <~ at_ payloadBytes 0x3A ;;
  DOk (PLPreFrameUpdate (mkPreFrameUpdatePayload
    (mkFrameUpdate frameNumber playerIdx isFollower actionStateID xPosition
       yPosition facingDirection percent)
    randomSeed joystickX joystickY cStickX cStickY trigger processedButtons
    physicalButtons physicalLTrigger physicalRTrigger xAnalogUCF)).

Definition parsePostFrameUpdate (payloadBytes : list Z) : dres EventPayload :=
  frameNumber <~ i32At payloadBytes 0x0 ;;
  playerIdx <~ at_ payloadBytes 0x4 ;;
  isFollower <~ boolAt payloadBytes 0x5 ;;
  actionStateID <~ u16At payloadBytes 0x7 ;;
  xPosition <~ f32At payloadBytes 0x9 ;;
  yPosition <~ f32At payloadBytes 0xD ;;
  facingDirection <~ f32At payloadBytes 0x11 ;;
  percent <~ f32At payloadBytes 0x15 ;;
  internalCharacterID <~ at_ payloadBytes 0x6 ;;
  shieldSize <~ f32At payloadBytes 0x19 ;;
  lastHittingAttackID <~ at_ payloadBytes 0x1D ;;
  currentComboCount <~ at_ payloadBytes 0x1E ;;
  lastHitBy <~ at_ payloadBytes 0x1F ;;
  stocksRemaining <~ at_ payloadBytes 0x20 ;;
  actionStateFrameCounter <~ f32At payloadBytes 0x21 ;;
  stateBitFlags1 <~ at_ payloadBytes 0x25 ;;
  stateBitFlags2 <~ at_ payloadBytes 0x26 ;;
  stateBitFlags3 <~ at_ payloadBytes 0x27 ;;
  stateBitFlags4 <~ at_ payloadBytes 0x28 ;;
  stateBitFlags5 <~ at_ payloadBytes 0x29 ;;
  miscAS <~ f32At payloadBytes 0x2A ;;
  airborne <~ boolAt payloadBytes 0x2E ;;
  lastGroundID <~ u16At payloadBytes 0x2F ;;
  jumpsRemaining <~ at_ payloadBytes 0x31 ;;
  lCancelStatus <~ at_ payloadBytes 0x32 ;;
  hurtboxCollisionState <~ at_ payloadBytes 0x33 ;;
  selfInducedAirXSpeed <~ f32At payloadBytes 0x34 ;;
  selfInducedYSpeed <~ f32At payloadBytes 0x38 ;;
  attackBasedXSpeed <~ f32At payloadBytes 0x3C ;;
  attackBasedYSpeed <~ f32At payloadBytes 0x40 ;;
  selfInducedGroundXSpeed <~ f32At payloadBytes 0x44 ;;
  hitlagFramesRemaining <~ f32At payloadBytes 0x48 ;;
  animationIndex <~ u32At payloadBytes 0x4C ;;
  DOk (PLPostFrameUpdate (mkPostFrameUpdatePayload
    (mkFrameUpdate frameNumber playerIdx isFollower actionStateID xPosition
       yPosition facingDirection percent)
    internalCharacterID shieldSize lastHittingAttackID currentComboCount
    lastHitBy stocksRemaining actionStateFrameCounter stateBitFlags1
    stateBitFlags2 stateBitFlags3 stateBitFlags4 stateBitFlags5 miscAS airborne
    lastGroundID jumpsRemaining lCancelStatus hurtboxCollisionState
    selfInducedAirXSpeed selfInducedYSpeed attackBasedXSpeed attackBasedYSpeed
    selfInducedGroundXSpeed hitlagFramesRemaining animationIndex)).

Definition parseItemUpdate (payloadBytes : list Z) : dres EventPayload :=
  frameNumber <~ i32At payloadBytes 0x0 ;;
  typeID <~ u16At payloadBytes 0x4 ;;
  state <~ at_ payloadBytes 0x6 ;;
  facingDirection <~ f32At payloadBytes 0x7 ;;
  xVelocity <~ f32At payloadBytes 0xB ;;
  yVelocity <~ f32At payloadBytes 0xF ;;
  xPosition <~ f32At payloadBytes 0x13 ;;
  yPosition <~ f32At payloadBytes 0x17 ;;
  damageTaken <~ u16At payloadBytes 0x1B ;;
  expirationTimer <~ f32At payloadBytes 0x1D ;;
  spawnID <~ u32At payloadBytes 0x21 ;;
  samusMissileType <~ at_ payloadBytes 0x25 ;;
  peachTurnipFace <~ at_ payloadBytes 0x26 ;;
  isLaunched <~ at_ payloadBytes 0x27 ;;
  chargedPower <~ at_ payloadBytes 0x28 ;;
  owner <~ i8At payloadBytes 0x29 ;;
  DOk (PLItemUpdate (mkItemUpdatePayload frameNumber typeID state facingDirection
    xVelocity yVelocity xPosition yPosition damageTaken expirationTimer spawnID
    samusMissileType peachTurnipFace isLaunched chargedPower owner)).

(** [parsePayload]: the payload of the event, or the error, or a panic.
    The slice argument is given as the array it is a view of, [payloadBuf],
    and the bytes the array holds at the time of the call, [payloadBytes].
    Every case but [GeckoList] copies what it reads out of the slice. *)
Definition parsePayload (command : Z) (payloadBuf : bufref) (payloadBytes : list Z)
    : dres SlpEvent :=
  payload <~
    (if command =? Command.MessageSplitter then
       data <~ slice payloadBytes 0x0 0x200 ;;
       dataLength <~ u16At payloadBytes 0x200 ;;
       internalCommand <~ at_ payloadBytes 0x202 ;;
       lastMessage <~ boolAt payloadBytes 0x203 ;;
       DOk (PLMessageSplitter
              (mkMessageSplitterPayload data dataLength internalCommand lastMessage))
     else if command =? Command.EventPayloads then
       payloadsLength <~ at_ payloadBytes 0 ;;
       payloadSizes <~ parseSizes 256 payloadBytes payloadsLength 1 ∅ ;;
       DOk (PLEventPayloads (mkEventPayloadsPayload payloadsLength payloadSizes))
     else if command =? Command.GameStart then parseGameStart payloadBytes
     else if command =? Command.PreFrameUpdate then parsePreFrameUpdate payloadBytes
     else if command =? Command.PostFrameUpdate then parsePostFrameUpdate payloadBytes
     else if command =? Command.GameEnd then
       gameEndMethod <~ at_ payloadBytes 0x0 ;;
       lrasInitiator <~ i8At payloadBytes 0x1 ;;
       DOk (PLGameEnd (mkGameEndPayload gameEndMethod lrasInitiator))
     else if command =? Command.FrameStart then
       frameNumber <~ i32At payloadBytes 0x0 ;;
       randomSeed <~ u32At payloadBytes 0x4 ;;
       sceneFrameCounter <~ u32At payloadBytes 0x8 ;;
       DOk (PLFrameStart (mkFrameStartPayload frameNumber randomSeed sceneFrameCounter))
     else if command =? Command.ItemUpdate then parseItemUpdate payloadBytes
     else if command =? Command.FrameBookend then
       frameNumber <~ i32At payloadBytes 0x0 ;;
       latestFinalizedFrame <~ i32At payloadBytes 0x4 ;;
       DOk (PLFrameBookend (mkFrameBookendPayload frameNumber latestFinalizedFrame))
     else if command =? Command.GeckoList then
       DOk (PLGeckoList (mkGeckoListPayload payloadBuf))
     else DErr (ErrUnknownCommand command)) ;;
  DOk (mkSlpEvent command payload).

End Decoder.

(** ** The reader (dolphin_connection.go, [SlpReader]) *)

Record SlpReader := mkSlpReader {
  Source : SlpSource;
  include : gmap Z bool;
  RawStart : Z;
  RawLength : Z;
  MetadataStart : Z;
  MetadataLength : Z;
  PayloadSizes : gmap Z Z }.

Definition preambleMagic : list Z :=
  [0x7B; 0x55; 0x03; 0x72; 0x61; 0x77; 0x5B; 0x24; 0x55; 0x23; 0x6c].

(** The loop of [NewSlpReader] that reads the (command, size) triples into
    the reused three-byte buffer [eventInfo]. *)
Fixpoint readPayloadSizes (fuel : nat) (payloadsLength payloadsBytesRead : Z)
    (eventInfo : list Z) (payloadSizes : gmap Z Z) (s : SlpSource)
    : error + (gmap Z Z * SlpSource) :=
  if payloadsBytesRead <? payloadsLength then
    match fuel with
    | O => inr (payloadSizes, s)
    | S fuel' =>
        let '(eventInfo, bytesRead, err, s) := Read eventInfo s in
        match err with
        | Some e => inl e
        | None =>
            readPayloadSizes fuel' payloadsLength (payloadsBytesRead + bytesRead) eventInfo
              (<[default 0 (eventInfo !! 0%nat) := beZ (drop 1 eventInfo)]> payloadSizes) s
        end
    end
  else inr (payloadSizes, s).

(** [include[0x10] = true] and [include[i] = true] for [0x35 <= i < 0x3E] *)
Definition defaultInclude : gmap Z bool :=
  foldr (λ i m, <[i := true]> m) ∅
    [0x10; 0x35; 0x36; 0x37; 0x38; 0x39; 0x3A; 0x3B; 0x3C; 0x3D].

Definition NewSlpReader (s : SlpSource) : error + SlpReader :=
  let '(length, s) := GetLength false s in
  let '(preamble, _, err, s) := Read (replicate 15 0) s in
  match err with
  | Some e => inl e
  | None =>
      if negb (bool_decide (take 11 preamble = preambleMagic))
      then inl (ErrInvalidPreamble (take 11 preamble))
      else
        let rawStart := 15 in
        let rawLength := beZ (drop 11 preamble) in
        let metadataStart := rawStart + rawLength + 10 in
        let metadataLength := length - metadataStart - 1 in
        let '(eventPayloads, _, err, s) := Read [0; 0] s in
        match err with
        | Some e => inl e
        | None =>
            let first := default 0 (eventPayloads !! 0%nat) in
            let second := default 0 (eventPayloads !! 1%nat) in
            if negb (first =? 0x35) then inl (ErrExpectedEventPayloads first)
            else
              match readPayloadSizes 255 second 1 [0; 0; 0] {[first := second]} s with
              | inl e => inl e
              | inr (payloadSizes, s) =>
                  inr (mkSlpReader s defaultInclude rawStart rawLength
                         metadataStart metadataLength payloadSizes)
              end
        end
  end.

Definition SetInclude (command : Z) (incl : bool) (r : SlpReader) : option error * SlpReader :=
  if negb (command =? 0x10) && ((command <? 0x35) || (0x3D <? command))
  then (Some (ErrUnknownCommand command), r)
  else (None, mkSlpReader (Source r) (<[command := incl]> (include r)) (RawStart r)
                (RawLength r) (MetadataStart r) (MetadataLength r) (PayloadSizes r)).

(** What the goroutine of [YieldEvents] does to the channel: it sends
    results and closes it, or it panics after having sent some. With the
    results come the byte source and the payload buffers as the goroutine
    leaves them. *)
Inductive yielded :=
| Closed (results : list SlpEventResult) (s : SlpSource) (buffers : gmap Z (list Z))
| YieldPanic (results : list SlpEventResult) (s : SlpSource) (buffers : gmap Z (list Z)).

Definition sent (y : yielded) : list SlpEventResult :=
  match y with Closed l _ _ => l | YieldPanic l _ _ => l end.

Definition send (r : SlpEventResult) (y : yielded) : yielded :=
  match y with
  | Closed l s bufs => Closed (r :: l) s bufs
  | YieldPanic l s bufs => YieldPanic (r :: l) s bufs
  end.

(** The payload buffers as the goroutine left them. *)
Definition buffers (y : yielded) : gmap Z (list Z) :=
  match y with Closed _ _ bufs => bufs | YieldPanic _ _ bufs => bufs end.

(** The bytes a [GeckoListPayload] shows once the goroutine is done: those
    its buffer holds then, the payload of the last [GeckoList] event read. *)
Definition geckoBytes (y : yielded) (g : GeckoListPayload) : list Z :=
  default [] (buffers y !! GeckoCodes g).

Section Reader.

Variable Transform : list Z → list Z → list Z * option error.

(** The goroutine's loop [for position < end]. [commandBuf] and the
    payload buffers are allocated once and reused. Every iteration that
    does not return reads the command byte and so advances [position]:
    fuel for [end - position] iterations is enough ([yieldLoop_fuel]). *)
Fixpoint yieldLoop (fuel : nat) (incl : gmap Z bool) (stopYielding : SlpEvent → bool)
    (end_ position : Z) (commandBuf : list Z) (payloadBuffers : gmap Z (list Z))
    (s : SlpSource) : yielded :=
  if position <? end_ then
    match fuel with
    | O => Closed [] s payloadBuffers
    | S fuel' =>
        (* read event byte *)
        let '(commandBuf, bytesRead, err, s) := Read commandBuf s in
        if bool_decide (err ≠ None)
        then Closed [mkSlpEventResult None err] s payloadBuffers
        else
          let position := position + bytesRead in
          let command := default 0 (commandBuf !! 0%nat) in
          (* ensure event payload size is known *)
          match payloadBuffers !! command with
          | None => Closed [mkSlpEventResult None err] s payloadBuffers
          | Some payload =>
              (* skip events that are unknown or not included *)
              if negb (default false (incl !! command)) then
                let '(err, s) := SeekCurrent (Z.of_nat (length payload)) s in
                if bool_decide (err ≠ None)
                then Closed [mkSlpEventResult None err] s payloadBuffers
                else yieldLoop fuel' incl stopYielding end_ position commandBuf
                       payloadBuffers s
              else
                (* read event payload *)
                let '(payload, bytesRead, err, s) := Read payload s in
                let payloadBuffers := <[command := payload]> payloadBuffers in
                if bool_decide (err ≠ None)
                then Closed [mkSlpEventResult None err] s payloadBuffers
                else
                  let position := position + bytesRead in
                  match parsePayload Transform command command payload with
                  | DPanic => YieldPanic [] s payloadBuffers
                  | DErr e => Closed [mkSlpEventResult None (Some e)] s payloadBuffers
                  | DOk event =>
                      send (mkSlpEventResult (Some event) None)
                        (if stopYielding event then Closed [] s payloadBuffers
                         else yieldLoop fuel' incl stopYielding end_ position commandBuf
                                payloadBuffers s)
                  end
          end
    end
  else Closed [] s payloadBuffers.

(** [YieldEvents]: the error it returns itself, or what its goroutine
    sends on the channel it returns. *)
Definition YieldEvents (stopYielding : SlpEvent → bool) (r : SlpReader) : error + yielded :=
  (* reset to start of raw data *)
  let '(err, s) := SeekStart (RawStart r) (Source r) in
  match err with
  | Some _ => inl ErrSeekStart
  | None =>
      (* construct buffers for payloads *)
      let payloadBuffers := (λ payloadSize, replicate (Z.to_nat payloadSize) 0) <$> PayloadSizes r in
      let position := RawStart r in
      let end_ := RawStart r + RawLength r - 1 in
      inr (yieldLoop (Z.to_nat (end_ - position)) (include r) stopYielding end_ position
             [0] payloadBuffers s)
  end.

End Reader.

(** ** Replay files for the reader scenarios *)

(** The single-byte range of Shift-JIS: a byte below 0x80 decodes to the
    same byte of UTF-8. The replays below hold no other byte in their
    string fields; on other input this stand-in reports an error. *)
Definition asciiTransform (dst src : list Z) : list Z * option error :=
  if forallb (λ x, x <? 0x80) src
  then (src ++ drop (length src) dst, None)
  else (dst, Some ErrTransform).

Definition be16 (z : Z) : list Z := [uint8 (z / 256); uint8 z].
Definition be32 (z : Z) : list Z :=
  [uint8 (z / 2 ^ 24); uint8 (z / 2 ^ 16); uint8 (z / 2 ^ 8); uint8 z].

(** A zero payload of [size] bytes with the given bytes written at the
    given offsets. *)
Definition payloadWith (size : nat) (fields : list (Z * list Z)) : list Z :=
  foldl (λ b '(i, v), take (Z.to_nat i) b ++ v ++ drop (Z.to_nat i + length v) b)
    (replicate size 0) fields.

Definition sizeGameStart : nat := 0x2BD.
Definition sizePre : nat := 0x3F.
Definition sizePost : nat := 0x50.
Definition sizeGameEnd : nat := 2.
Definition sizeItem : nat := 0x2A.
Definition sizeBookend : nat := 8.

(** The [EventPayloads] event: command, length byte, then the triples. *)
Definition bytesEventPayloads : list Z :=
  [0x35; 19]
  ++ [0x36] ++ be16 (Z.of_nat sizeGameStart)
  ++ [0x37] ++ be16 (Z.of_nat sizePre)
  ++ [0x38] ++ be16 (Z.of_nat sizePost)
  ++ [0x39] ++ be16 (Z.of_nat sizeGameEnd)
  ++ [0x3B] ++ be16 (Z.of_nat sizeItem)
  ++ [0x3C] ++ be16 (Z.of_nat sizeBookend).

(** Version 3.0.0, a human player with character [character] in slot 0,
    the other slots empty, in-game scene. *)
Definition bytesGameStart (character : Z) : list Z :=
  [0x36] ++ payloadWith sizeGameStart
    [(0, [3; 0; 0]); (0x64, [character; Human]);
     (0x65 + 0x24, [Empty]); (0x65 + 0x48, [Empty]); (0x65 + 0x6C, [Empty]);
     (0x1A3, [0x8])].
Definition bytesPre (frame player seed : Z) : list Z :=
  [0x37] ++ payloadWith sizePre [(0, be32 frame); (4, [player]); (6, be32 seed)].
Definition bytesPost (frame player internalChar : Z) : list Z :=
  [0x38] ++ payloadWith sizePost [(0, be32 frame); (4, [player]); (6, [internalChar])].
Definition bytesItem (frame typeID : Z) : list Z :=
  [0x3B] ++ payloadWith sizeItem [(0, be32 frame); (4, be16 typeID)].
Definition bytesBookend (frame latestFinalized : Z) : list Z :=
  [0x3C] ++ payloadWith sizeBookend [(0, be32 frame); (4, be32 latestFinalized)].
Definition bytesGameEnd (method lras : Z) : list Z :=
  [0x39; method; uint8 lras].

(** The container: preamble, raw region, the key of the metadata element
    with an empty object, and the closing brace. *)
Definition replayFile (raw : list Z) : list Z :=
  preambleMagic ++ be32 (Z.of_nat (length raw)) ++ raw
  ++ [0x55; 0x08; 0x6D; 0x65; 0x74; 0x61; 0x64; 0x61; 0x74; 0x61; 0x7B; 0x7D] ++ [0x7D].

Definition neverStop (_ : SlpEvent) : bool := false.

(** Open a reader on a file, apply [configure] to it, and parse what
    [YieldEvents] sends with a fresh non-strict parser, as [SlpGame.process]
    does. [None] stands for a failure before any event is read. *)
Definition processFile (configure : SlpReader → SlpReader) (file : list Z)
    : option (yielded * outcome (option error)) :=
  match NewSlpReader (NewSlpSourceBytes file) with
  | inl _ => None
  | inr reader =>
      match YieldEvents asciiTransform neverStop (configure reader) with
      | inl _ => None
      | inr y => Some (y, ParseReplay (sent y) (NewSlpParser (mkSlpParserOpts false)))
      end
  end.

(** * Vocabulary of the properties

    The predicates, relations and scenario inputs that the statements
    below are written with. *)

(** ** Outcomes of a method *)

(** [wp m Q E p]: run from [p], the method [m] returns a value and a state
    that satisfy [Q], or panics in a state that satisfies [E]. *)
Definition wp {A} (m : M A) (Q : A → SlpParser → Prop) (E : SlpParser → Prop)
    (p : SlpParser) : Prop :=
  match m p with
  | Ret a q => Q a q
  | Panic q => E q
  end.

(** ** Logs *)

(** The frame numbers of the [FinalizedFrame] emissions of a log, in order. *)
Definition finalizedIndices (l : list (ParserEvent * TriggerPayload)) : list Z :=
  omap (λ e, match e with
             | (FinalizedFrame, TPFrameEntry n _) => Some n
             | _ => None
             end) l.

(** The frame numbers of the [RollbackFrame] emissions of a log, in order. *)
Definition rollbackFrames (l : list (ParserEvent * TriggerPayload)) : list Z :=
  omap (λ e, match e with
             | (RollbackFrame, TPFrameEntry n _) => Some n
             | _ => None
             end) l.


(** In a log, every [Frame] and every [FinalizedFrame] emission has a
    [Started] emission before it. *)
Definition startedPrecedes (l : list (ParserEvent * TriggerPayload)) : Prop :=
  ∀ i ev pl, l !! i = Some (ev, pl) → ev = Frame ∨ ev = FinalizedFrame →
             ∃ j pl', (j < i)%nat ∧ l !! j = Some (Started, pl').

(** ** Finalization steps *)

(** One passage through the body of the loop of [finalizeFrames] that
    reaches its end: [FinalizedFrame] is emitted for frame
    [lastFinalizedFrame + 1], which becomes the last finalized one. *)
Definition finalize1 (f : FrameEntry) (p : SlpParser) : SlpParser :=
  let n := int32 (lastFinalizedFrame p + 1) in
  set_lastFinalizedFrame n
    (set_emitted (λ l, l ++ [(FinalizedFrame, TPFrameEntry n f)]) p).

(** [finalizes target p q]: [q] is [p] after some number of such passages
    towards [target]. *)
Inductive finalizes (target : Z) : SlpParser → SlpParser → Prop :=
| finalizes_refl p : finalizes target p p
| finalizes_step p f q :
    lastFinalizedFrame p < target →
    Frames p !! int32 (lastFinalizedFrame p + 1) = Some f →
    finalizes target (finalize1 f p) q →
    finalizes target p q.

(** ** The effect of a finalization *)

(** The [FinalizedFrame] emissions for the frames [lo + 1], ..., [hi] of a
    frame map, in this order. *)
Definition finalizedRun (frames : gmap Z FrameEntry) (lo hi : Z)
    : list (ParserEvent * TriggerPayload) :=
  (λ n, (FinalizedFrame, TPFrameEntry n (default zeroFrameEntry (frames !! n))))
    <$> seqZ (lo + 1) (hi - lo).

(** [finalizedUpTo target p o]: the outcome [o] is that of a finalization
    towards [target] begun in state [p]. The call returned; it changed
    nothing but the log and [lastFinalizedFrame]; it emitted
    [FinalizedFrame] once for each frame from the one after the old
    [lastFinalizedFrame] to the new one, in order and with the frame stored
    under that number, and went no further than [target]. When it returned
    no error it stopped because [target] was reached or because the next
    frame is absent; when it returned an error, the next frame is present
    and failed the check of strict mode. *)
Definition finalizedUpTo (target : Z) (p : SlpParser) (o : outcome (option error)) : Prop :=
  ∃ err q,
    o = Ret err q ∧
    Options q = Options p ∧ Frames q = Frames p ∧ P_Rollbacks q = P_Rollbacks p ∧
    gameInfo q = gameInfo p ∧ P_GameEnd q = P_GameEnd p ∧
    latestFrameIndex q = latestFrameIndex p ∧
    gameInfoComplete q = gameInfoComplete p ∧ maps q = maps p ∧
    lastFinalizedFrame p ≤ lastFinalizedFrame q ≤ Z.max (lastFinalizedFrame p) target ∧
    (∀ n, lastFinalizedFrame p < n ≤ lastFinalizedFrame q → is_Some (Frames p !! n)) ∧
    emitted q
    = emitted p ++ finalizedRun (Frames p) (lastFinalizedFrame p) (lastFinalizedFrame q) ∧
    match err with
    | None =>
        target ≤ lastFinalizedFrame q ∨ Frames p !! (lastFinalizedFrame q + 1) = None
    | Some e =>
        Strict (Options p) = true ∧ lastFinalizedFrame q < target ∧
        is_Some (Frames p !! (lastFinalizedFrame q + 1)) ∧
        ∃ side player,
          e = ErrMissingFrameUpdate (lastFinalizedFrame q + 1) target side player
    end.

(** ** Relations between the state before and the state after

    A relation is [Stable] when it is a preorder that holds across each
    kind of state change the handlers make, for frame numbers that satisfy
    [ok]. *)
Class Stable (ok : Z → Prop) (R : relation SlpParser) : Prop := {
  stable_preorder :: PreOrder R;
  stable_Frames f p : R p (set_Frames f p);
  stable_Rollbacks n f i p :
    R p (set_Rollbacks (checkIfRollbackFrame n (Some f) i (P_Rollbacks p)).2 p);
  stable_gameInfo g p : R p (set_gameInfo g p);
  stable_GameEnd g p : R p (set_GameEnd g p);
  stable_gameInfoComplete b p : R p (set_gameInfoComplete b p);
  stable_maps f p : R p (set_maps f p);
  stable_int32 z : ok (int32 z);
  stable_latestFrameIndex n p : ok n → R p (set_latestFrameIndex n p);
  stable_emitted ev pl p :
    ev ≠ FinalizedFrame → R p (set_emitted (λ l, l ++ [(ev, pl)]) p);
  stable_finalizes target p q : ok target → finalizes target p q → R p q;
  stable_finalizes_latest p q : finalizes (latestFrameIndex p) p q → R p q }.

(** [m] respects [R], whether it returns or panics. *)
Definition keeps (R : relation SlpParser) {A} (m : M A) : Prop :=
  ∀ p, R p (final_state (m p)).

(** The log of [q] is the log of [p] with more emissions after it. *)
Definition extends (p q : SlpParser) : Prop := ∃ l, emitted q = emitted p ++ l.

(** The frame counters hold 32-bit values, and the [FinalizedFrame]
    emissions so far are in strictly increasing order and none is above
    [lastFinalizedFrame]. *)
Definition finalizedInOrder (p : SlpParser) : Prop :=
  isInt32 (lastFinalizedFrame p) ∧ isInt32 (latestFrameIndex p) ∧
  StronglySorted Z.lt (finalizedIndices (emitted p)) ∧
  Forall (λ n, n ≤ lastFinalizedFrame p) (finalizedIndices (emitted p)).

(** From [p] to [q] that order is kept and [lastFinalizedFrame] has not
    gone down. *)
Definition upwards (p q : SlpParser) : Prop :=
  finalizedInOrder p →
  finalizedInOrder q ∧ lastFinalizedFrame p ≤ lastFinalizedFrame q.

(** The game info and its completion flag are the same. *)
Definition sameGameInfo (p q : SlpParser) : Prop :=
  gameInfo q = gameInfo p ∧ gameInfoComplete q = gameInfoComplete p.

(** The recorded lengths of the rollback runs are the same. *)
Definition sameLengths (p q : SlpParser) : Prop :=
  Lengths (P_Rollbacks q) = Lengths (P_Rollbacks p).

(** ** Events and reachable states *)

(** The frame numbers of an event that the parser passes on satisfy [ok]. *)
Definition eventFrames (ok : Z → Prop) (e : SlpEvent) : Prop :=
  match Ev_Payload e with
  | PLPreFrameUpdate x => ok (FrameNumber (Pre_FrameUpdate x))
  | PLPostFrameUpdate x => ok (FrameNumber (Post_FrameUpdate x))
  | PLFrameBookend x => ok (LatestFinalizedFrame x)
  | _ => True
  end.

(** The [int32] fields of an event hold 32-bit values, as they do in every
    event [parsePayload] builds. *)
Definition validEvent (e : SlpEvent) : bool :=
  match Ev_Payload e with
  | PLPreFrameUpdate x => isInt32b (FrameNumber (Pre_FrameUpdate x))
  | PLPostFrameUpdate x => isInt32b (FrameNumber (Post_FrameUpdate x))
  | PLItemUpdate x => isInt32b (Item_FrameNumber x)
  | PLFrameBookend x => isInt32b (FB_FrameNumber x) && isInt32b (LatestFinalizedFrame x)
  | PLFrameStart x => isInt32b (FS_FrameNumber x)
  | _ => true
  end.

(** The payload of an event has the dynamic type its command calls for. *)
Definition wellTyped (e : SlpEvent) : bool :=
  let cmd := Ev_Command e in
  if cmd =? Command.GameStart then
    match Ev_Payload e with PLGameStart _ => true | _ => false end
  else if cmd =? Command.PreFrameUpdate then
    match Ev_Payload e with PLPreFrameUpdate _ => true | _ => false end
  else if cmd =? Command.PostFrameUpdate then
    match Ev_Payload e with PLPostFrameUpdate _ => true | _ => false end
  else if cmd =? Command.GameEnd then
    match Ev_Payload e with PLGameEnd _ => true | _ => false end
  else if cmd =? Command.ItemUpdate then
    match Ev_Payload e with PLItemUpdate _ => true | _ => false end
  else if cmd =? Command.FrameBookend then
    match Ev_Payload e with PLFrameBookend _ => true | _ => false end
  else true.

(** The commands [handleEvent] has no case for. *)
Definition ignoredCommand (cmd : Z) : bool :=
  negb ((cmd =? Command.GameStart) || (cmd =? Command.PreFrameUpdate) ||
        (cmd =? Command.PostFrameUpdate) || (cmd =? Command.GameEnd) ||
        (cmd =? Command.ItemUpdate) || (cmd =? Command.FrameBookend)).

(** The dynamic type of the payload is the one [updateType] names, as in
    the two calls of [handleFrameUpdate]. *)
Definition matches (updateType : FrameUpdateType) (payload : FrameUpdatePayload) : Prop :=
  match updateType, payload with
  | Pre, IsPre _ | Post, IsPost _ => True
  | _, _ => False
  end.

(** The states a parser made by [NewSlpParser] goes through while it
    handles events, one after the other, for as long as no call panics. *)
Inductive reachable (options : SlpParserOpts) : SlpParser → Prop :=
| reachable_new : reachable options (NewSlpParser options)
| reachable_step p e err q :
    reachable options p →
    validEvent e = true →
    handleEvent e p = Ret err q →
    reachable options q.

(** ** Map references of the frames *)

(** [r] refers to a map object of the store [ms]. *)
Definition validRef (ms : list (gmap Z FrameUpdates)) (r : mapref) : Prop :=
  ∃ i, r = Some i ∧ (i < length ms)%nat.

(** Every stored frame holds two allocated maps: what [getFrame] makes. *)
Definition wfFrames (frames : gmap Z FrameEntry) (ms : list (gmap Z FrameUpdates)) : Prop :=
  ∀ n f, frames !! n = Some f → validRef ms (Players f) ∧ validRef ms (Followers f).

Definition wfParser (p : SlpParser) : Prop := wfFrames (Frames p) (maps p).

(** The invariant of the handlers: the frames hold allocated maps; and,
    when [known] is true, a [GameStart] has set [gameInfo]. *)
Definition ready (known : bool) (p : SlpParser) : Prop :=
  wfParser p ∧ (known = true → is_Some (gameInfo p)).

(** [m] returns in a state that is [ready] again, and it can panic only
    when [gameInfo] is not known to be set. *)
Definition total {A} (known : bool) (m : M A) (p : SlpParser) : Prop :=
  wp m (λ _ q, ready known q) (λ _, known = false) p.

(** ** Frame updates by version *)


(** ** Scenarios *)

(** [gameInfo.Players[i].CharacterID] *)
Definition playerCharacter (i : nat) (p : SlpParser) : option Z :=
  gameInfo p ≫= λ gi, CharacterID <$> GI_Players gi !! i.


(** The same for a strict parser and version 3.0.0. *)
Definition strictStarted : SlpParser :=
  final_state (handleEvent (evGameStart (gameStart (mkVersion 3 0 0) (onePlayer 2) 8))
                 (NewSlpParser (mkSlpParserOpts true))).

(** A strict parser that has the pre-frame update of frame -123 but not
    its post-frame update. *)
Definition strictHalfFrame : SlpParser :=
  final_state
    (ParseReplay (okResults [evGameStart (gameStart (mkVersion 3 0 0) (onePlayer 2) 8);
                             evPre (preUpdate (-123) 0 1)])
       (NewSlpParser (mkSlpParserOpts true))).

(** A non-strict parser that has received the start of a game of version
    3.0.0 and both updates of frame -123. *)
Definition afterFirstFrame : SlpParser :=
  final_state
    (ParseReplay (okResults [evGameStart (gameStart (mkVersion 3 0 0) (onePlayer 2) 8);
                             evPre (preUpdate (-123) 0 1);
                             evPost (postUpdate (-123) 0 0)])
       (NewSlpParser (mkSlpParserOpts false))).

(** A game of a version below 1.6.0: [GameStart] emits nothing, the frame
    updates emit [Frame] at once, and [Started] comes with the first
    post-frame update after frame -123. *)
Definition oldVersionGame : list SlpEvent :=
  [evGameStart (gameStart (mkVersion 1 5 0) (onePlayer 2) 8);
   evPre (preUpdate (-123) 0 1); evPost (postUpdate (-123) 0 0);
   evPre (preUpdate (-122) 0 2); evPost (postUpdate (-122) 0 0)].

(** Scenario 2: a game with one human player in slot 0, whose [GameStart]
    carries [character]; frame -123 with both updates, the post-frame
    update with internal character 0x13; its bookend; the end of the game. *)
Definition scenario2 (version : Version) (character : Z) : list SlpEvent :=
  [evGameStart (gameStart version (onePlayer character) 8);
   evPre (preUpdate (-123) 0 1);
   evPost (postUpdate (-123) 0 0x13);
   evBookend (-123) (-123);
   evGameEnd (mkGameEndPayload 2 (-1))].

(** Scenario 3: frames -123 and -122 are transmitted once each (updates
    and bookend), the pre-frame update of frame -122 is transmitted again
    (seed 3 instead of 2), and a first pre-frame update of frame -121
    follows. *)
Definition scenario3 : list SlpEvent :=
  [evGameStart (gameStart (mkVersion 3 0 0) (onePlayer 2) 8);
   evPre (preUpdate (-123) 0 1); evPost (postUpdate (-123) 0 0); evBookend (-123) (-123);
   evPre (preUpdate (-122) 0 2); evPost (postUpdate (-122) 0 0); evBookend (-122) (-123);
   evPre (preUpdate (-122) 0 3);
   evPre (preUpdate (-121) 0 4)].

(** A replay with frame -123 complete, then the byte 0x40, which the
    payload-size table does not list. *)
Definition rawUnknown : list Z :=
  bytesEventPayloads ++ bytesGameStart 2
  ++ bytesPre (-123) 0 1 ++ bytesPost (-123) 0 0 ++ bytesBookend (-123) (-123)
  ++ [0x40] ++ bytesGameEnd 2 (-1).

(** A replay with an item update inside frame -123. *)
Definition rawItem : list Z :=
  bytesEventPayloads ++ bytesGameStart 2
  ++ bytesPre (-123) 0 1 ++ bytesItem (-123) 5 ++ bytesPost (-123) 0 0
  ++ bytesBookend (-123) (-123) ++ bytesGameEnd 2 (-1).

(** [SetInclude(0x3B, false)] *)
Definition excludeItems (r : SlpReader) : SlpReader := (SetInclude 0x3B false r).2.

(** What a result carries: the command of its event, and its error. *)
Definition summary (r : SlpEventResult) : option Z * option error :=
  (Ev_Command <$> Event r, Error r).

(** The goroutine of [YieldEvents] closed the channel (it did not panic). *)
Definition closed (y : yielded) : Prop :=
  match y with Closed _ _ _ => True | YieldPanic _ _ _ => False end.

(** The byte source as the goroutine left it. *)
Definition finalSource (y : yielded) : SlpSource :=
  match y with Closed _ s _ => s | YieldPanic _ s _ => s end.

(** ** Further scenarios *)

(** A strict parser that has received the start of a game of version
    3.0.0 and both updates of frame -123. *)
Definition strictFirstFrame : SlpParser :=
  final_state
    (ParseReplay (okResults [evGameStart (gameStart (mkVersion 3 0 0) (onePlayer 2) 8);
                             evPre (preUpdate (-123) 0 1);
                             evPost (postUpdate (-123) 0 0)])
       (NewSlpParser (mkSlpParserOpts true))).


(** * Properties *)

(** ** Reasoning about parser methods *)

Lemma wp_ret {A} (a : A) Q E p : Q a p → wp (ret a) Q E p.
Proof. done. Qed.

Lemma wp_bind {A B} (m : M A) (k : A → M B) Q E p :
  wp m (λ a q, wp (k a) Q E q) E p → wp (bind m k) Q E p.
Proof. unfold wp, bind. by destruct (m p). Qed.

Lemma wp_get Q E p : Q p p → wp get Q E p.
Proof. done. Qed.

Lemma wp_modify f Q E p : Q tt (f p) → wp (modify f) Q E p.
Proof. done. Qed.

Lemma wp_panic {A} Q E p : E p → wp (@panic A) Q E p.
Proof. done. Qed.

Lemma wp_Trigger ev pl Q E p :
  Q tt (set_emitted (λ l, l ++ [(ev, pl)]) p) → wp (Trigger ev pl) Q E p.
Proof. done. Qed.

Lemma wp_mono {A} (m : M A) (Q Q' : A → SlpParser → Prop) (E E' : SlpParser → Prop) p :
  wp m Q E p → (∀ a q, Q a q → Q' a q) → (∀ q, E q → E' q) → wp m Q' E' p.
Proof. unfold wp. destruct (m p); eauto. Qed.

Lemma wp_final {A} (m : M A) (R : SlpParser → Prop) p :
  wp m (λ _ q, R q) R p ↔ R (final_state (m p)).
Proof. unfold wp, final_state. by destruct (m p). Qed.

Ltac wp_step :=
  lazymatch goal with
  | |- wp (bind _ _) _ _ _ => simple apply wp_bind
  | |- wp get _ _ _ => simple apply wp_get
  | |- wp (modify _) _ _ _ => simple apply wp_modify
  | |- wp (Trigger _ _) _ _ _ => simple apply wp_Trigger
  | |- wp (ret _) _ _ _ => simple apply wp_ret
  | |- wp panic _ _ _ => simple apply wp_panic
  end; cbv beta.
Ltac wp_steps := repeat wp_step.

(** ** Fixed-width arithmetic *)

Lemma int32_id z : isInt32 z → int32 z = z.
Proof.
  unfold isInt32, minInt32, maxInt32, int32, wrapS. intros H.
  change (2 ^ (32 - 1)) with 2147483648. change (2 ^ 32) with 4294967296.
  change (2 ^ 31) with 2147483648 in H.
  rewrite Z.mod_small; lia.
Qed.

Lemma int32_range z : isInt32 (int32 z).
Proof.
  unfold isInt32, minInt32, maxInt32, int32, wrapS.
  change (2 ^ (32 - 1)) with 2147483648. change (2 ^ 32) with 4294967296.
  change (2 ^ 31) with 2147483648.
  pose proof (Z.mod_pos_bound (z + 2147483648) 4294967296). lia.
Qed.

Lemma isInt32b_spec z : isInt32b z = true ↔ isInt32 z.
Proof. unfold isInt32b, isInt32. rewrite andb_true_iff. lia. Qed.

(** ** Finalization *)

Lemma finalizes_fields target p q :
  finalizes target p q →
  Options q = Options p ∧ Frames q = Frames p ∧ P_Rollbacks q = P_Rollbacks p ∧
  gameInfo q = gameInfo p ∧ P_GameEnd q = P_GameEnd p ∧
  latestFrameIndex q = latestFrameIndex p ∧
  gameInfoComplete q = gameInfoComplete p ∧ maps q = maps p.
Proof.
  induction 1 as [p|p f q Hlt Hf Hfin IH]; [done|].
  destruct IH as (?&?&?&?&?&?&?&?). simpl in *. by repeat split.
Qed.

Lemma finalizes_emitted target p q :
  finalizes target p q →
  ∃ l, emitted q = emitted p ++ l ∧ Forall (λ e, e.1 = FinalizedFrame) l.
Proof.
  induction 1 as [p|p f q Hlt Hf Hfin (l & Hl & Hall)].
  - exists []. by rewrite app_nil_r.
  - eexists (_ :: l). simpl in Hl. rewrite Hl, <- app_assoc. split; [done|].
    by constructor.
Qed.

(** The outcome of the loop: it stopped after some passages; an error is a
    missing update found by the strict check, a panic is the strict check
    reading the players of a nil [gameInfo]. *)
Lemma finalizeLoop_spec fuel target p :
  wp (finalizeLoop fuel target)
     (λ err q, finalizes target p q ∧
               ∀ e, err = Some e →
                    Strict (Options p) = true ∧
                    ∃ n side pl, e = ErrMissingFrameUpdate n target side pl)
     (λ q, finalizes target p q ∧ Strict (Options p) = true ∧ gameInfo p = None)
     p.
Proof.
  revert p. induction fuel as [|fuel IH]; intros p; simpl.
  - do 2 wp_step. destruct (_ <? _); wp_step; (split; [constructor|done]).
  - do 2 wp_step. destruct (lastFinalizedFrame p <? target) eqn:Hlt;
      [|wp_step; split; [constructor|done]].
    apply Z.ltb_lt in Hlt.
    destruct (Frames p !! _) as [frame|] eqn:Hframe;
      [|wp_step; split; [constructor|done]].
    wp_step.
    assert (Hrest : wp
      (Trigger FinalizedFrame (TPFrameEntry (int32 (lastFinalizedFrame p + 1)) frame) ;;;
       modify (set_lastFinalizedFrame (int32 (lastFinalizedFrame p + 1))) ;;;
       finalizeLoop fuel target)
      (λ err q, finalizes target p q ∧
                ∀ e, err = Some e →
                     Strict (Options p) = true ∧
                     ∃ n side pl, e = ErrMissingFrameUpdate n target side pl)
      (λ q, finalizes target p q ∧ Strict (Options p) = true ∧ gameInfo p = None)
      p).
    { wp_steps. eapply wp_mono; [apply IH| |]; cbv beta.
      - intros err q [Hfin Herr]. split; [|done].
        by apply (finalizes_step target p frame q).
      - intros q (Hfin & Hs & Hg). split; [|done].
        by apply (finalizes_step target p frame q). }
    destruct (Strict (Options p)) eqn:Hstrict; [|by wp_step].
    destruct (gameInfo p) as [gi|] eqn:Hgi;
      [|wp_step; split; [constructor|done]].
    wp_step.
    destruct (checkPlayers _ _ _ _ _ _) as [e|] eqn:Hcheck; [|done].
    wp_step. split; [constructor|]. intros e' [= <-]. split; [done|].
    clear -Hcheck. revert Hcheck. generalize (length (GI_Players gi)).
    induction (GI_Players gi) as [|pl pls IHp]; intros n; simpl; [done|].
    repeat case_match; intros; simplify_eq; eauto.
Qed.

Lemma finalizeFrames_spec target p :
  wp (finalizeFrames target)
     (λ err q, finalizes target p q ∧
               ∀ e, err = Some e →
                    Strict (Options p) = true ∧
                    ∃ n side pl, e = ErrMissingFrameUpdate n target side pl)
     (λ q, finalizes target p q ∧ Strict (Options p) = true ∧ gameInfo p = None)
     p.
Proof. unfold finalizeFrames. wp_step. wp_step. apply finalizeLoop_spec. Qed.

(** The fuel of [finalizeFrames] is enough: when the loop ends without
    error it is because its condition fails or because of a gap, never
    because the fuel ran out. *)
Lemma finalizeLoop_fuel fuel target p q :
  isInt32 (lastFinalizedFrame p) → isInt32 target →
  (Z.to_nat (target - lastFinalizedFrame p) ≤ fuel)%nat →
  finalizeLoop fuel target p = Ret None q →
  target ≤ lastFinalizedFrame q ∨
  Frames q !! int32 (lastFinalizedFrame q + 1) = None.
Proof.
  revert p. induction fuel as [|fuel IH]; intros p Hlff Ht Hfuel; simpl;
    unfold bind, get; simpl;
    destruct (lastFinalizedFrame p <? target) eqn:Hlt;
    try (intros [= <-]; left; apply Z.ltb_ge in Hlt; lia).
  - apply Z.ltb_lt in Hlt. lia.
  - apply Z.ltb_lt in Hlt.
    destruct (Frames p !! int32 (lastFinalizedFrame p + 1)) as [frame|] eqn:Hframe;
      [|intros [= <-]; by right].
    assert (Hnext : int32 (lastFinalizedFrame p + 1) = lastFinalizedFrame p + 1).
    { apply int32_id. unfold isInt32 in *. lia. }
    assert (Hrec : ∀ s, lastFinalizedFrame s = lastFinalizedFrame p + 1 →
              finalizeLoop fuel target s = Ret None q →
              target ≤ lastFinalizedFrame q ∨
              Frames q !! int32 (lastFinalizedFrame q + 1) = None).
    { intros s Hs. apply IH; [rewrite Hs; unfold isInt32 in *; lia|done|rewrite Hs; lia]. }
    destruct (Strict (Options p)); [destruct (gameInfo p); [|done]|]; simpl;
      [destruct (checkPlayers _ _ _ _ _ _); [done|]|]; simpl;
      (apply Hrec; simpl; by rewrite Hnext).
Qed.

Lemma finalizeFrames_stops target p q :
  isInt32 (lastFinalizedFrame p) → isInt32 target →
  finalizeFrames target p = Ret None q →
  target ≤ lastFinalizedFrame q ∨
  Frames q !! int32 (lastFinalizedFrame q + 1) = None.
Proof.
  intros Hlff Ht. unfold finalizeFrames, bind, get. by apply finalizeLoop_fuel.
Qed.

Lemma checkPlayers_error ms frame toFinalize target n players e :
  checkPlayers ms frame toFinalize target n players = Some e →
  ∃ side player, e = ErrMissingFrameUpdate toFinalize target side player.
Proof.
  induction players as [|pl pls IH]; simpl; [done|].
  repeat case_match; intros; simplify_eq; eauto.
Qed.

Lemma finalizedRun_nil frames lo : finalizedRun frames lo lo = [].
Proof. unfold finalizedRun. by rewrite Z.sub_diag. Qed.

Lemma finalizedRun_cons frames lo hi f :
  lo < hi → frames !! (lo + 1) = Some f →
  finalizedRun frames lo hi
  = (FinalizedFrame, TPFrameEntry (lo + 1) f) :: finalizedRun frames (lo + 1) hi.
Proof.
  intros Hlt Hf. unfold finalizedRun. rewrite seqZ_cons by lia.
  rewrite fmap_cons, Hf. simpl. do 3 f_equal. lia.
Qed.

(** The loop of [finalizeFrames], by its effect: with 32-bit frame
    numbers, fuel for [target - lastFinalizedFrame] iterations, and, in
    strict mode, a [gameInfo] to read the players from. *)
Lemma finalizeLoop_finalizedUpTo fuel target p :
  isInt32 (lastFinalizedFrame p) → isInt32 target →
  (Z.to_nat (target - lastFinalizedFrame p) ≤ fuel)%nat →
  (Strict (Options p) = true → is_Some (gameInfo p)) →
  finalizedUpTo target p (finalizeLoop fuel target p).
Proof.
  revert p. induction fuel as [|fuel IH]; intros p Hlast Htarget Hfuel Hgi;
    simpl; unfold bind at 1, get at 1;
    destruct (lastFinalizedFrame p <? target) eqn:Hlt.
  - apply Z.ltb_lt in Hlt. lia.
  - apply Z.ltb_ge in Hlt. exists None, p.
    rewrite finalizedRun_nil, app_nil_r. split_and!; try done; lia.
  - apply Z.ltb_lt in Hlt.
    assert (Hnext : int32 (lastFinalizedFrame p + 1) = lastFinalizedFrame p + 1).
    { apply int32_id. unfold isInt32 in *. lia. }
    rewrite Hnext.
    destruct (Frames p !! (lastFinalizedFrame p + 1)) as [frame|] eqn:Hframe.
    + assert (Hrest : finalizedUpTo target p
        ((Trigger FinalizedFrame (TPFrameEntry (lastFinalizedFrame p + 1) frame) ;;;
          modify (set_lastFinalizedFrame (lastFinalizedFrame p + 1)) ;;;
          finalizeLoop fuel target) p)).
      { unfold bind, Trigger, modify.
        set (p' := set_lastFinalizedFrame (lastFinalizedFrame p + 1)
                     (set_emitted (λ l, l ++ [(FinalizedFrame,
                        TPFrameEntry (lastFinalizedFrame p + 1) frame)]) p)).
        destruct (IH p') as (err & q & Hq & ? & HF & ? & ? & ? & ? & ? & ? & Hle & Hex & Hem & Herr).
        { simpl. unfold isInt32 in *. lia. }
        { done. }
        { simpl. lia. }
        { done. }
        simpl in *. exists err, q. split_and!; try done; try lia.
        - intros n Hn. destruct (decide (n = lastFinalizedFrame p + 1)) as [->|Hne];
            [by rewrite Hframe|apply Hex; lia].
        - rewrite Hem, <- app_assoc. f_equal.
          by rewrite (finalizedRun_cons _ (lastFinalizedFrame p) _ frame) by (done || lia). }
      destruct (Strict (Options p)) eqn:Hstrict; [|exact Hrest].
      destruct (Hgi eq_refl) as [gi Hgi']. rewrite Hgi'. unfold bind at 1, ret at 1.
      destruct (checkPlayers _ _ _ _ _ _) as [e|] eqn:Hcheck; [|exact Hrest].
      apply checkPlayers_error in Hcheck as (side & player & ->).
      exists (Some (ErrMissingFrameUpdate (lastFinalizedFrame p + 1) target side player)), p.
      rewrite finalizedRun_nil, app_nil_r.
      split_and!; try done; try lia. by eexists _, _.
    + exists None, p. rewrite finalizedRun_nil, app_nil_r.
      split_and!; try done; try lia. by right.
  - apply Z.ltb_ge in Hlt. exists None, p.
    rewrite finalizedRun_nil, app_nil_r. split_and!; try done; lia.
Qed.

Lemma finalizeFrames_finalizedUpTo target p :
  isInt32 (lastFinalizedFrame p) → isInt32 target →
  (Strict (Options p) = true → is_Some (gameInfo p)) →
  finalizedUpTo target p (finalizeFrames target p).
Proof.
  intros Hlast Htarget Hgi. unfold finalizeFrames, bind, get.
  by apply finalizeLoop_finalizedUpTo.
Qed.

(** ** Relations that every parser method respects

    Every handler respects a [Stable] relation on the events whose frame
    numbers satisfy [ok] ([handleEvent_keeps]), and so does [ParseReplay]
    ([ParseReplay_keeps]). *)

Section Keeps.

Context (ok : Z → Prop) (R : relation SlpParser) `{!Stable ok R}.

Lemma keeps_ret {A} (a : A) : keeps R (ret a).
Proof. intros p. simpl. reflexivity. Qed.

Lemma keeps_get : keeps R get.
Proof. intros p. simpl. reflexivity. Qed.

Lemma keeps_panic {A} : keeps R (@panic A).
Proof. intros p. simpl. reflexivity. Qed.

Lemma keeps_modify f : (∀ p, R p (f p)) → keeps R (modify f).
Proof. intros H p. apply H. Qed.

Lemma keeps_bind_at {A B} (m : M A) (k : A → M B) p :
  R p (final_state (m p)) → (∀ a, keeps R (k a)) → R p (final_state (bind m k p)).
Proof.
  intros Hm Hk. unfold bind. destruct (m p) as [a p'|p']; [|done].
  simpl in Hm. etrans; [done|]. apply Hk.
Qed.

Lemma keeps_bind {A B} (m : M A) (k : A → M B) :
  keeps R m → (∀ a, keeps R (k a)) → keeps R (bind m k).
Proof. intros Hm Hk p. by apply keeps_bind_at. Qed.

Lemma keeps_Trigger ev pl : ev ≠ FinalizedFrame → keeps R (Trigger ev pl).
Proof. intros H. apply keeps_modify. intros p. by apply stable_emitted. Qed.

Lemma keeps_makeMap : keeps R makeMap.
Proof. intros p. apply stable_maps. Qed.

Lemma keeps_mapGet r k : keeps R (mapGet r k).
Proof. intros p. simpl. reflexivity. Qed.

Lemma keeps_mapSet r k v : keeps R (mapSet r k v).
Proof.
  destruct r as [i|]; [|apply keeps_panic]. intros p. simpl.
  destruct (maps p !! i); simpl; [apply stable_maps|reflexivity].
Qed.

Lemma keeps_finalizeFrames target : ok target → keeps R (finalizeFrames target).
Proof.
  intros Ht p. apply (stable_finalizes (ok:=ok) target); [done|].
  pose proof (finalizeFrames_spec target p) as H. unfold wp in H.
  destruct (finalizeFrames target p); simpl; tauto.
Qed.

Lemma keeps_finalizeFrames_latest p :
  R p (final_state (finalizeFrames (latestFrameIndex p) p)).
Proof.
  apply stable_finalizes_latest.
  pose proof (finalizeFrames_spec (latestFrameIndex p) p) as H. unfold wp in H.
  destruct (finalizeFrames _ p); simpl; tauto.
Qed.

Ltac keeps_step :=
  lazymatch goal with
  | |- keeps R (bind _ _) => apply keeps_bind; [|intros ?]
  | |- keeps R (ret _) => apply keeps_ret
  | |- keeps R get => apply keeps_get
  | |- keeps R panic => apply keeps_panic
  | |- keeps R (Trigger _ _) => by apply keeps_Trigger
  | |- keeps R makeMap => apply keeps_makeMap
  | |- keeps R (mapGet _ _) => apply keeps_mapGet
  | |- keeps R (mapSet _ _ _) => apply keeps_mapSet
  | |- keeps R (modify (set_Frames _)) => apply keeps_modify, stable_Frames
  | |- keeps R (modify (set_gameInfo _)) => apply keeps_modify, stable_gameInfo
  | |- keeps R (modify (set_GameEnd _)) => apply keeps_modify, stable_GameEnd
  | |- keeps R (modify (set_gameInfoComplete _)) =>
      apply keeps_modify, stable_gameInfoComplete
  | |- keeps R (match ?x with _ => _ end) => destruct x
  end.

Lemma keeps_completeGameInfo : keeps R completeGameInfo.
Proof. unfold completeGameInfo. repeat keeps_step. Qed.

Lemma keeps_getFrame n : keeps R (getFrame n).
Proof. unfold getFrame. repeat keeps_step. Qed.

Lemma keeps_handleGameStart x : keeps R (handleGameStart x).
Proof. unfold handleGameStart. repeat keeps_step. apply keeps_completeGameInfo. Qed.

Lemma keeps_installUpdate m i ut payload : keeps R (installUpdate m i ut payload).
Proof. unfold installUpdate. repeat keeps_step. Qed.

Lemma keeps_rollback n i :
  keeps R (p <- get ;;
         let currentFrame := default zeroFrameEntry (Frames p !! n) in
         let '(isRollback, r) :=
           checkIfRollbackFrame n (Some currentFrame) i (P_Rollbacks p) in
         modify (set_Rollbacks r) ;;;
         if isRollback then Trigger RollbackFrame (TPFrameEntry n currentFrame)
         else ret tt).
Proof.
  intros p. unfold bind, get, modify, Trigger, ret. cbv zeta.
  pose proof (stable_Rollbacks n (default zeroFrameEntry (Frames p !! n)) i p) as H.
  destruct (checkIfRollbackFrame _ _ _ _) as [[] r]; simpl in *; [|exact H].
  etrans; [exact H|]. by apply (stable_emitted (ok:=ok)).
Qed.

Lemma keeps_handleFrameUpdate ut payload :
  ok (FrameNumber (GetFrameUpdate payload)) → keeps R (handleFrameUpdate ut payload).
Proof.
  intros Hn. unfold handleFrameUpdate.
  apply keeps_bind; [apply keeps_getFrame|intros frame].
  apply keeps_bind;
    [apply keeps_modify; intros p; by apply stable_latestFrameIndex|intros _].
  apply keeps_bind;
    [destruct ut, (IsFollower (GetFrameUpdate payload));
     first [apply keeps_ret|apply keeps_rollback]|intros _].
  apply keeps_bind; [apply keeps_installUpdate|intros _].
  repeat keeps_step.
  apply keeps_finalizeFrames, stable_int32.
Qed.

Lemma keeps_handlePostFrameUpdate x :
  ok (FrameNumber (Post_FrameUpdate x)) → keeps R (handlePostFrameUpdate x).
Proof.
  intros Hn. unfold handlePostFrameUpdate.
  apply keeps_bind; [by apply keeps_handleFrameUpdate|intros err].
  repeat keeps_step; apply keeps_completeGameInfo.
Qed.

Lemma keeps_handleGameEnd x : keeps R (handleGameEnd x).
Proof.
  intros p. unfold handleGameEnd. unfold bind at 1. simpl.
  apply keeps_bind_at; [|intros err; repeat keeps_step].
  destruct (_ && _); [apply keeps_finalizeFrames_latest|simpl; reflexivity].
Qed.

Lemma keeps_handleItemUpdate x : keeps R (handleItemUpdate x).
Proof. unfold handleItemUpdate. apply keeps_bind; [apply keeps_getFrame|]. intros f. keeps_step. Qed.

Lemma keeps_handleFrameBookend x :
  ok (LatestFinalizedFrame x) → keeps R (handleFrameBookend x).
Proof.
  intros Hn. unfold handleFrameBookend.
  apply keeps_bind; [apply keeps_getFrame|intros frame].
  repeat keeps_step; apply keeps_finalizeFrames; first [done|apply stable_int32].
Qed.

End Keeps.

Lemma validEvent_eventFrames e : validEvent e = true → eventFrames isInt32 e.
Proof.
  unfold validEvent, eventFrames. destruct (Ev_Payload e); try done.
  - apply isInt32b_spec.
  - apply isInt32b_spec.
  - intros [_ H]%andb_true_iff. by apply isInt32b_spec.
Qed.

Lemma handleEvent_keeps ok R `{!Stable ok R} e :
  eventFrames ok e → keeps R (handleEvent e).
Proof.
  intros Hv. destruct e as [cmd payload]. unfold handleEvent, eventFrames in *.
  simpl in *.
  repeat (destruct (cmd =? _); [destruct payload; try apply (keeps_panic ok R)|]);
    try apply (keeps_ret ok R).
  - apply (keeps_bind ok); [done|by apply (keeps_handleGameStart ok)|].
    intros; by apply (keeps_ret ok).
  - by apply (keeps_handleFrameUpdate ok).
  - by apply (keeps_handlePostFrameUpdate ok).
  - by apply (keeps_handleGameEnd ok).
  - apply (keeps_bind ok); [done|by apply (keeps_handleItemUpdate ok)|].
    intros; by apply (keeps_ret ok).
  - by apply (keeps_handleFrameBookend ok).
Qed.

Lemma ParseReplay_keeps ok R `{!Stable ok R} results :
  Forall (λ r, from_option (eventFrames ok) True (Event r)) results →
  keeps R (ParseReplay results).
Proof.
  induction 1 as [|r results Hr Hrest IH]; simpl; [by apply (keeps_ret ok)|].
  destruct (Error r); [by apply (keeps_ret ok)|].
  destruct (Event r) as [e|]; [|by apply (keeps_panic ok)].
  apply (keeps_bind ok); [done|by apply (handleEvent_keeps ok)|].
  intros [err|]; [by apply (keeps_ret ok)|done].
Qed.

Lemma reachable_keeps R `{!Stable isInt32 R} options p :
  reachable options p → R (NewSlpParser options) p.
Proof.
  induction 1 as [|p e err q Hp IH Hv He]; [reflexivity|].
  etrans; [exact IH|].
  pose proof (handleEvent_keeps isInt32 R e (validEvent_eventFrames e Hv) p) as H.
  by rewrite He in H.
Qed.

(** *** The log only grows *)

(** Whatever the frame numbers, a handler only appends to the log. *)
#[local] Instance extends_stable : Stable (λ _, True) extends.
Proof.
  split.
  - split.
    + intros p. exists []. by rewrite app_nil_r.
    + intros p q r [l1 H1] [l2 H2]. exists (l1 ++ l2). by rewrite H2, H1, app_assoc.
  - intros; exists []; simpl; by rewrite app_nil_r.
  - intros; exists []; simpl; by rewrite app_nil_r.
  - intros; exists []; simpl; by rewrite app_nil_r.
  - intros; exists []; simpl; by rewrite app_nil_r.
  - intros; exists []; simpl; by rewrite app_nil_r.
  - intros; exists []; simpl; by rewrite app_nil_r.
  - done.
  - intros; exists []; simpl; by rewrite app_nil_r.
  - intros ev pl p _. by eexists.
  - intros target p q _ H. destruct (finalizes_emitted _ _ _ H) as (l & Hl & _). by exists l.
  - intros p q H. destruct (finalizes_emitted _ _ _ H) as (l & Hl & _). by exists l.
Qed.

(** *** Finalization goes upwards *)

Lemma finalizedIndices_snoc l ev pl :
  ev ≠ FinalizedFrame → finalizedIndices (l ++ [(ev, pl)]) = finalizedIndices l.
Proof.
  intros H. unfold finalizedIndices. rewrite omap_app. simpl.
  destruct ev; try done; by rewrite app_nil_r.
Qed.

Lemma finalize1_upwards target f p :
  isInt32 target → lastFinalizedFrame p < target → upwards p (finalize1 f p).
Proof.
  intros Ht Hlt (Hlff & Hlatest & Hsorted & Hle).
  assert (Hn : int32 (lastFinalizedFrame p + 1) = lastFinalizedFrame p + 1).
  { apply int32_id. unfold isInt32 in *. lia. }
  unfold finalizedInOrder, finalize1. simpl. rewrite Hn.
  unfold finalizedIndices. rewrite omap_app. simpl. fold (finalizedIndices (emitted p)).
  split; [|lia]. split_and!.
  - unfold isInt32 in *. lia.
  - done.
  - apply StronglySorted_app. split_and!; [|done|repeat constructor].
    intros x1 x2 Hx1 ->%list_elem_of_singleton.
    rewrite Forall_forall in Hle. specialize (Hle x1 Hx1). simpl in Hle. lia.
  - apply Forall_app. split; [|by repeat constructor].
    eapply Forall_impl; [exact Hle|]. simpl. intros. lia.
Qed.

Lemma finalizes_upwards target p q :
  isInt32 target → finalizes target p q → upwards p q.
Proof.
  intros Ht. induction 1 as [p|p f q Hlt Hf Hfin IH]; [by intros ?|].
  intros Hp. destruct (finalize1_upwards target f p Ht Hlt Hp) as [H1 Hle1].
  destruct (IH H1) as [H2 Hle2]. split; [done|lia].
Qed.

(** For 32-bit frame numbers the order of finalization is kept. *)
#[local] Instance upwards_stable : Stable isInt32 upwards.
Proof.
  split.
  - split.
    + by intros p Hp.
    + intros p q r H1 H2 Hp. destruct (H1 Hp) as [Hq ?].
      destruct (H2 Hq) as [Hr ?]. split; [done|lia].
  - by intros f p Hp.
  - by intros n f i p Hp.
  - by intros g p Hp.
  - by intros g p Hp.
  - by intros b p Hp.
  - by intros f p Hp.
  - apply int32_range.
  - intros n p Hn (?&?&?&?). by split.
  - intros ev pl p Hev (?&?&?&?). unfold finalizedInOrder. simpl.
    rewrite finalizedIndices_snoc by done. by split.
  - apply finalizes_upwards.
  - intros p q H Hp. eapply finalizes_upwards; [|done..]. apply Hp.
Qed.

Lemma reachable_ParseReplay options events p :
  reachable options p →
  Forall (λ e, validEvent e = true) events →
  is_Some (returned (ParseReplay (okResults events) p)) →
  reachable options (final_state (ParseReplay (okResults events) p)).
Proof.
  intros Hp Hv. revert p Hp.
  induction Hv as [|e events He Hv IH]; intros p Hp; simpl; [done|].
  unfold bind. destruct (handleEvent e p) as [err q|q] eqn:Hq.
  - assert (reachable options q) by by eapply reachable_step.
    destruct err; [done|]. by apply IH.
  - by intros [? [=]].
Qed.

Lemma StronglySorted_lt_NoDup (l : list Z) : StronglySorted Z.lt l → NoDup l.
Proof.
  induction 1 as [|x l Hl IH Hx]; constructor; [|done].
  intros Hin. rewrite Forall_forall in Hx. specialize (Hx x Hin). lia.
Qed.

Lemma finalizedInOrder_new options : finalizedInOrder (NewSlpParser options).
Proof.
  unfold finalizedInOrder, isInt32, minInt32, maxInt32. simpl.
  split_and!; try lia; constructor.
Qed.

Lemma reachable_finalizedInOrder options p :
  reachable options p → finalizedInOrder p.
Proof.
  intros H. apply (reachable_keeps upwards) in H.
  by destruct (H (finalizedInOrder_new options)).
Qed.

(** A gap stops finalization: no error, nothing emitted, nothing changed. *)
Lemma finalizeFrames_gap target p :
  Frames p !! int32 (lastFinalizedFrame p + 1) = None →
  finalizeFrames target p = Ret None p.
Proof.
  intros Hgap. unfold finalizeFrames, bind, get.
  destruct (Z.to_nat _); simpl; unfold bind, get;
    destruct (_ <? _); try done. by rewrite Hgap.
Qed.

(** ** C7: order of finalization *)

(** C7. For the events a parser handles one after the other (no [Reset] in
    between), each of them with 32-bit frame numbers: handling an event
    never lowers [lastFinalizedFrame]; the frame numbers of the
    [FinalizedFrame] emissions so far are strictly increasing, so none
    occurs twice; and when frame [lastFinalizedFrame + 1] is absent from
    the frame map, [finalizeFrames] returns no error and leaves the parser
    as it is. *)
Theorem finalization_in_order options p e :
  reachable options p →
  validEvent e = true →
  let q := final_state (handleEvent e p) in
  lastFinalizedFrame p ≤ lastFinalizedFrame q ∧
  StronglySorted Z.lt (finalizedIndices (emitted q)) ∧
  NoDup (finalizedIndices (emitted q)) ∧
  ∀ target, Frames q !! int32 (lastFinalizedFrame q + 1) = None →
            finalizeFrames target q = Ret None q.
Proof.
  intros Hp Hv q.
  pose proof (reachable_finalizedInOrder _ _ Hp) as Hord.
  destruct (handleEvent_keeps isInt32 upwards e (validEvent_eventFrames e Hv) p Hord)
    as [(_ & _ & Hsorted & _) Hle].
  split_and!; [done|done|by apply StronglySorted_lt_NoDup|].
  intros target. apply finalizeFrames_gap.
Qed.

Lemma afterFirstFrame_reachable : reachable (mkSlpParserOpts false) afterFirstFrame.
Proof.
  apply reachable_ParseReplay.
  - apply reachable_new.
  - by repeat constructor.
  - vm_compute. by eexists.
Qed.

(** C7 at work: the bookend of frame -123 handled by [afterFirstFrame],
    which finalizes that frame. *)
Lemma finalization_in_order_witness :
  let q := final_state (handleEvent (evBookend (-123) (-123)) afterFirstFrame) in
  lastFinalizedFrame afterFirstFrame ≤ lastFinalizedFrame q ∧
  StronglySorted Z.lt (finalizedIndices (emitted q)) ∧
  NoDup (finalizedIndices (emitted q)) ∧
  ∀ target, Frames q !! int32 (lastFinalizedFrame q + 1) = None →
            finalizeFrames target q = Ret None q.
Proof.
  apply (finalization_in_order (mkSlpParserOpts false) afterFirstFrame
           (evBookend (-123) (-123))).
  - apply afterFirstFrame_reachable.
  - reflexivity.
Defined.

(** ** C6: [Started] and the frame events *)

Lemma handleEvent_ignored e p :
  ignoredCommand (Ev_Command e) = true → handleEvent e p = Ret None p.
Proof.
  unfold ignoredCommand, handleEvent. rewrite negb_true_iff, !orb_false_iff.
  by intros (((((-> & ->) & ->) & ->) & ->) & ->).
Qed.

Lemma ParseReplay_ignored events results p :
  Forall (λ e, ignoredCommand (Ev_Command e) = true) events →
  ParseReplay (okResults events ++ results) p = ParseReplay results p.
Proof.
  induction 1 as [|e events He Hrest IH]; simpl; [done|].
  unfold bind. by rewrite handleEvent_ignored.
Qed.

(** C6, counterexample: for [oldVersionGame], a game of version 1.5.0,
    the log begins with a [RollbackFrame] and a [Frame] emission; [Started]
    is its last entry. *)
Lemma started_precedes_counterexample :
  ¬ startedPrecedes
      (emitted (final_state (ParseReplay (okResults oldVersionGame)
                               (NewSlpParser (mkSlpParserOpts false))))).
Proof.
  intros H.
  destruct (H 1%nat Frame
              (TPFrameEntry (-123) (mkFrameEntry (Some 0%nat) (Some 1%nat) [] false)))
    as (j & pl' & Hj & Hlook); [by vm_compute|by left|].
  destruct j as [|j]; [|lia]. vm_compute in Hlook. discriminate.
Qed.

Lemma handleGameStart_new options gs :
  Version_GTE (GS_Version gs) (mkVersion 1 6 0) = true →
  ∃ p pl, handleEvent (evGameStart gs) (NewSlpParser options) = Ret None p ∧
          emitted p = [(Started, pl)].
Proof.
  intros Hver. unfold handleEvent, evGameStart. cbn [Ev_Command Ev_Payload].
  change (Command.GameStart =? Command.GameStart) with true. cbv iota.
  unfold handleGameStart, bind at 1 2. unfold modify at 1. rewrite Hver.
  by eexists _, _.
Qed.

(** C6, amended. When the first event the parser has a case for is a
    [GameStart] of version 1.6.0 or later, then in the log of the whole
    run, however it ends, [Started] precedes every [Frame] and every
    [FinalizedFrame] emission. *)
Theorem started_precedes_frames options ignored gs results :
  Forall (λ e, ignoredCommand (Ev_Command e) = true) ignored →
  Version_GTE (GS_Version gs) (mkVersion 1 6 0) = true →
  startedPrecedes
    (emitted (final_state
       (ParseReplay (okResults (ignored ++ [evGameStart gs]) ++ results)
          (NewSlpParser options)))).
Proof.
  intros Hign Hver. unfold okResults. rewrite fmap_app, <- app_assoc.
  rewrite (ParseReplay_ignored ignored) by done.
  destruct (handleGameStart_new options gs Hver) as (p & pl0 & Hstart & Hp).
  cbn [fmap list_fmap app ParseReplay Error Event]. unfold bind at 1.
  rewrite Hstart.
  destruct (ParseReplay_keeps (λ _, True) extends results) with (p := p) as [l Hl].
  { apply Forall_forall. intros r _. by destruct (Event r) as [[? []]|]. }
  rewrite Hl, Hp. intros i ev pl Hi Hev.
  destruct i as [|i]; [injection Hi as <- _; by destruct Hev|].
  eexists 0%nat, _. split; [lia|done].
Qed.

(** C6 at work: a stream that begins with the [EventPayloads] event, the
    [GameStart] of a game of version 3.0.0 and one bookended frame. *)
Lemma started_precedes_frames_witness :
  startedPrecedes
    (emitted (final_state
       (ParseReplay
          (okResults ([mkSlpEvent Command.EventPayloads
                         (PLEventPayloads (mkEventPayloadsPayload 1 ∅))]
                      ++ [evGameStart (gameStart (mkVersion 3 0 0) (onePlayer 2) 8)])
           ++ okResults [evPre (preUpdate (-123) 0 1); evPost (postUpdate (-123) 0 0);
                         evBookend (-123) (-123)])
          (NewSlpParser (mkSlpParserOpts false))))).
Proof.
  apply started_precedes_frames.
  - by repeat constructor.
  - reflexivity.
Defined.

(** ** C8: the rollback window of a bookend *)

Lemma int32_minus_window n :
  minInt32 + MaxRollbackFrames ≤ n ≤ maxInt32 →
  int32 (n - MaxRollbackFrames) = n - MaxRollbackFrames.
Proof.
  intros H. apply int32_id. unfold isInt32, MaxRollbackFrames in *. lia.
Qed.

Lemma finalizeFrames_no_window_error target p n m :
  returned (finalizeFrames target p) ≠ Some (Some (ErrRollbackWindow n m)).
Proof.
  pose proof (finalizeFrames_spec target p) as H. unfold wp in H.
  destruct (finalizeFrames target p) as [[e|] q|q]; simpl; try done.
  destruct H as [_ H]. destruct (H e eq_refl) as (_ & ? & ? & ? & ->). done.
Qed.

(** C8. A [FrameBookend] handled while [gameInfo.MajorScene] is 0x8, with a
    [latestFinalizedFrame] of at least -123: the frame is marked complete
    and stored, and [Frame] is emitted (state [p1]); then the call returns
    the rollback-window error exactly when strict mode is on and
    [latestFinalizedFrame] is below [frameNumber - 7]; otherwise it
    finalizes frames up to [latestFinalizedFrame]: from [p1], with 32-bit
    frame numbers, it emits [FinalizedFrame] for each frame after
    [lastFinalizedFrame] in order, up to [latestFinalizedFrame] or to the
    first absent frame or, in strict mode, to the first frame that lacks an
    update of a player, which is the error it then returns
    ([finalizedUpTo]). The subtraction is the 32-bit one of the code, which
    is the plain one for every frame number from [minInt32 + 7] on.
    Without strict mode the window error is never returned. *)
Theorem bookend_rollback_window p gi b :
  gameInfo p = Some gi →
  MajorScene gi = 0x8 →
  -123 ≤ LatestFinalizedFrame b →
  let frameNumber := FB_FrameNumber b in
  let outside := LatestFinalizedFrame b <? int32 (frameNumber - MaxRollbackFrames) in
  (∃ p1 f,
      Frames p1 !! frameNumber = Some f ∧ IsTransferComplete f = true ∧
      emitted p1 = emitted p ++ [(Frame, TPFrameEntry frameNumber f)] ∧
      lastFinalizedFrame p1 = lastFinalizedFrame p ∧
      handleFrameBookend b p =
        (if Strict (Options p) && outside
         then Ret (Some (ErrRollbackWindow MaxRollbackFrames frameNumber)) p1
         else finalizeFrames (LatestFinalizedFrame b) p1) ∧
      Frames p1 = <[frameNumber := f]> (Frames p) ∧
      Options p1 = Options p ∧
      (Strict (Options p) && outside = false →
       isInt32 (lastFinalizedFrame p) → isInt32 (LatestFinalizedFrame b) →
       finalizedUpTo (LatestFinalizedFrame b) p1 (handleFrameBookend b p))) ∧
  ((∃ n m, returned (handleFrameBookend b p) = Some (Some (ErrRollbackWindow n m))) ↔
   Strict (Options p) = true ∧
   LatestFinalizedFrame b < int32 (frameNumber - MaxRollbackFrames)) ∧
  (minInt32 + MaxRollbackFrames ≤ frameNumber ≤ maxInt32 →
   ((∃ n m, returned (handleFrameBookend b p) = Some (Some (ErrRollbackWindow n m))) ↔
    Strict (Options p) = true ∧
    LatestFinalizedFrame b < frameNumber - MaxRollbackFrames)) ∧
  (Strict (Options p) = false →
   ∀ n m, returned (handleFrameBookend b p) ≠ Some (Some (ErrRollbackWindow n m))).
Proof.
  intros Hgi Hscene Hlatest frameNumber outside.
  assert (Hrun : ∃ p1 f,
      handleFrameBookend b p =
        (if Strict (Options p) && outside
         then Ret (Some (ErrRollbackWindow MaxRollbackFrames frameNumber)) p1
         else finalizeFrames (LatestFinalizedFrame b) p1) ∧
      Frames p1 !! frameNumber = Some f ∧ IsTransferComplete f = true ∧
      emitted p1 = emitted p ++ [(Frame, TPFrameEntry frameNumber f)] ∧
      lastFinalizedFrame p1 = lastFinalizedFrame p ∧
      Frames p1 = <[frameNumber := f]> (Frames p) ∧
      Options p1 = Options p ∧ gameInfo p1 = gameInfo p).
  { apply Z.leb_le in Hlatest.
    unfold handleFrameBookend, getFrame, bind, get, makeMap, modify, Trigger, ret.
    fold frameNumber.
    destruct (Frames p !! frameNumber) as [frame|] eqn:Hframe; simpl;
      rewrite Hgi, Hscene, Hlatest; simpl; fold outside;
      (eexists _, _; split_and!;
       [destruct (Strict (Options p) && outside); reflexivity|..]);
      first [reflexivity | exact Hgi | simpl; by rewrite lookup_insert_eq]. }
  assert (Hiff :
    (∃ n m, returned (handleFrameBookend b p) = Some (Some (ErrRollbackWindow n m))) ↔
    Strict (Options p) = true ∧
    LatestFinalizedFrame b < int32 (frameNumber - MaxRollbackFrames)).
  { destruct Hrun as (p1 & f & -> & _).
    rewrite <- Z.ltb_lt. fold outside. rewrite <- andb_true_iff.
    destruct (Strict (Options p) && outside).
    - split; [done|]. intros _. by eexists _, _.
    - split; [|done]. intros (n & m & H).
      by apply finalizeFrames_no_window_error in H. }
  split_and!; [|done| |].
  - destruct Hrun as (p1 & f & Hrun & Hf & Hc & Hem & Hlast & HF & Hopt & Hgi1).
    exists p1, f. split_and!; try done.
    intros Hin Hi1 Hi2. rewrite Hrun, Hin.
    apply finalizeFrames_finalizedUpTo; [by rewrite Hlast|done|].
    intros _. by rewrite Hgi1, Hgi.
  - intros Hrange. by rewrite <- (int32_minus_window frameNumber Hrange).
  - intros Hstrict n m H. destruct Hiff as [Hiff _].
    destruct Hiff as [Hs _]; [by eexists _, _|congruence].
Qed.

Lemma isInt32_dec_true z : isInt32b z = true → isInt32 z.
Proof. apply isInt32b_spec. Qed.

(** C8 at work. Scenario 4: the bookend of frame 100 with latest finalized
    frame 50, handled by a strict parser in the in-game scene, is refused.
    The bookend of frame -123 with latest finalized frame -123, handled by
    a strict parser that holds both updates of that frame, finalizes it:
    [FinalizedFrame] is emitted for -123, which becomes the last finalized
    frame. *)
Lemma bookend_rollback_window_witness :
  (let p := strictStarted in
   let b := mkFrameBookendPayload 100 50 in
   let outside := LatestFinalizedFrame b <? int32 (FB_FrameNumber b - MaxRollbackFrames) in
   (∃ p1 f,
       Frames p1 !! FB_FrameNumber b = Some f ∧ IsTransferComplete f = true ∧
       emitted p1 = emitted p ++ [(Frame, TPFrameEntry (FB_FrameNumber b) f)] ∧
       lastFinalizedFrame p1 = lastFinalizedFrame p ∧
       handleFrameBookend b p =
         (if Strict (Options p) && outside
          then Ret (Some (ErrRollbackWindow MaxRollbackFrames (FB_FrameNumber b))) p1
          else finalizeFrames (LatestFinalizedFrame b) p1) ∧
       Frames p1 = <[FB_FrameNumber b := f]> (Frames p) ∧
       Options p1 = Options p ∧
       (Strict (Options p) && outside = false →
        isInt32 (lastFinalizedFrame p) → isInt32 (LatestFinalizedFrame b) →
        finalizedUpTo (LatestFinalizedFrame b) p1 (handleFrameBookend b p))) ∧
   ((∃ n m, returned (handleFrameBookend b p) = Some (Some (ErrRollbackWindow n m))) ↔
    Strict (Options p) = true ∧
    LatestFinalizedFrame b < int32 (FB_FrameNumber b - MaxRollbackFrames)) ∧
   (minInt32 + MaxRollbackFrames ≤ FB_FrameNumber b ≤ maxInt32 →
    ((∃ n m, returned (handleFrameBookend b p) = Some (Some (ErrRollbackWindow n m))) ↔
     Strict (Options p) = true ∧
     LatestFinalizedFrame b < FB_FrameNumber b - MaxRollbackFrames)) ∧
   (Strict (Options p) = false →
    ∀ n m, returned (handleFrameBookend b p) ≠ Some (Some (ErrRollbackWindow n m))))
  ∧
  (let p := strictFirstFrame in
   let b := mkFrameBookendPayload (-123) (-123) in
   (∃ p1 f,
       Frames p1 !! (-123) = Some f ∧ IsTransferComplete f = true ∧
       emitted p1 = emitted p ++ [(Frame, TPFrameEntry (-123) f)] ∧
       lastFinalizedFrame p1 = lastFinalizedFrame p ∧
       finalizedUpTo (-123) p1 (handleFrameBookend b p)) ∧
   returned (handleFrameBookend b p) = Some None ∧
   lastFinalizedFrame p = -124 ∧
   lastFinalizedFrame (final_state (handleFrameBookend b p)) = -123 ∧
   finalizedIndices (emitted (final_state (handleFrameBookend b p))) = [-123]).
Proof.
  split.
  - apply (bookend_rollback_window strictStarted
             (mkGameInfo (mkVersion 3 0 0) false false 0 [playerInfo 0 Human 2] 8 0)
             (mkFrameBookendPayload 100 50)).
    + reflexivity.
    + reflexivity.
    + simpl. lia.
  - intros p b.
    destruct (bookend_rollback_window strictFirstFrame
                (mkGameInfo (mkVersion 3 0 0) false false 0 [playerInfo 0 Human 2] 8 0)
                (mkFrameBookendPayload (-123) (-123)))
      as [(p1 & f & Hf & Hc & Hem & Hlast & _ & _ & _ & Hfin) _].
    + reflexivity.
    + reflexivity.
    + simpl. lia.
    + split_and!; [|by vm_compute..].
      exists p1, f. split_and!; [exact Hf|exact Hc|exact Hem|exact Hlast|].
      apply Hfin; [reflexivity|by apply isInt32_dec_true..].
Defined.

(** ** C10: [GameEnd] and a failed finalization *)

(** C10. When the finalization that a [GameEnd] event triggers fails (the
    error of the strict check, a missing update), the call returns that
    error after it has stored the payload in [GameEnd] and emitted [Ended]:
    the parser is not left as it was. *)
Theorem gameEnd_stored_on_error p payload e q :
  handleGameEnd payload p = Ret (Some e) q →
  Strict (Options p) = true ∧
  (∃ n target side pl, e = ErrMissingFrameUpdate n target side pl) ∧
  P_GameEnd q = Some payload ∧
  last (emitted q) = Some (Ended, TPGameEnd payload) ∧
  (∃ l, emitted q = emitted p ++ l ++ [(Ended, TPGameEnd payload)]) ∧
  q ≠ p.
Proof.
  unfold handleGameEnd, bind, get, modify, Trigger, ret. intros Hrun.
  destruct (_ && _); [|done].
  pose proof (finalizeFrames_spec (latestFrameIndex p) p) as Hfin. unfold wp in Hfin.
  destruct (finalizeFrames (latestFrameIndex p) p) as [err p1|p1]; [|done].
  injection Hrun as -> <-. destruct Hfin as [Hfin Herr].
  destruct (Herr e eq_refl) as (Hstrict & n & side & pl & ->).
  destruct (finalizes_emitted _ _ _ Hfin) as (l & Hl & _).
  assert (Hemitted : emitted
            (set_emitted (λ l0, l0 ++ [(Ended, TPGameEnd payload)])
               (set_GameEnd (Some payload) p1))
          = emitted p ++ l ++ [(Ended, TPGameEnd payload)]).
  { simpl. by rewrite Hl, app_assoc. }
  split_and!; [done|by eexists _, _, _, _|done|by rewrite Hemitted, app_assoc, last_snoc|by exists l|].
  intros Heq. apply (f_equal (λ s, length (emitted s))) in Heq.
  rewrite Hemitted, !length_app in Heq. simpl in Heq. lia.
Qed.

(** C10 at work: the end of the game handled by a strict parser that
    lacks the post-frame update of frame -123. *)
Lemma gameEnd_stored_on_error_witness :
  let p := strictHalfFrame in
  let payload := mkGameEndPayload 2 (-1) in
  let e := ErrMissingFrameUpdate (-123) (-123) "post" 0 in
  let q := final_state (handleGameEnd payload p) in
  handleGameEnd payload p = Ret (Some e) q ∧
  Strict (Options p) = true ∧
  (∃ n target side pl, e = ErrMissingFrameUpdate n target side pl) ∧
  P_GameEnd q = Some payload ∧
  last (emitted q) = Some (Ended, TPGameEnd payload) ∧
  (∃ l, emitted q = emitted p ++ l ++ [(Ended, TPGameEnd payload)]) ∧
  q ≠ p.
Proof.
  intros p payload e q.
  assert (Hrun : handleGameEnd payload p = Ret (Some e) q) by (vm_compute; reflexivity).
  split; [exact Hrun|].
  exact (gameEnd_stored_on_error p payload e q Hrun).
Defined.

(** ** Map references of the frames *)

Lemma installUpdate_ok m i ut payload p :
  matches ut payload → validRef (maps p) m →
  ∃ f, installUpdate m i ut payload p = Ret tt (set_maps f p) ∧
       length (f (maps p)) = length (maps p).
Proof.
  intros Hm (j & -> & Hj). unfold installUpdate, bind, mapGet, mapSet, ret.
  destruct (lookup_lt_is_Some_2 _ _ Hj) as [mj Hmj].
  destruct ut, payload; try done; simpl; rewrite Hmj;
    (eexists (λ ms, <[j := _]> ms); split; [reflexivity|by rewrite length_insert]).
Qed.

Lemma getFrame_ok n p :
  wfParser p →
  ∃ frame f, getFrame n p = Ret frame (set_maps f p) ∧
             (∃ extra, f (maps p) = maps p ++ extra) ∧
             validRef (f (maps p)) (Players frame) ∧
             validRef (f (maps p)) (Followers frame) ∧
             from_option (λ stored, frame = stored ∧ f (maps p) = maps p)
               (frame = mkFrameEntry (Some (length (maps p)))
                          (Some (S (length (maps p)))) [] false)
               (Frames p !! n).
Proof.
  intros Hwf. unfold getFrame, bind, get, makeMap, ret.
  destruct (Frames p !! n) as [frame|] eqn:Hframe; simpl.
  - exists frame, id. destruct (Hwf n frame Hframe). split_and!; try done.
    + destruct p; reflexivity.
    + exists []. by rewrite app_nil_r.
  - eexists _, (λ ms, (ms ++ [∅]) ++ [∅]). split_and!; try done.
    + exists [∅; ∅]. by rewrite <- app_assoc.
    + eexists. split; [done|]. rewrite !length_app. simpl. lia.
    + eexists. split; [done|]. rewrite !length_app. simpl. lia.
    + simpl. rewrite length_app. simpl. do 3 f_equal. lia.
Qed.

(** ** C5: frame updates before and after bookending *)




Lemma wfParser_empty p : Frames p = ∅ → wfParser p.
Proof. intros H n f. by rewrite H, lookup_empty. Qed.



(** ** C9: handlers and a nil [gameInfo] *)

Lemma validRef_mono ms ms' r :
  (length ms ≤ length ms')%nat → validRef ms r → validRef ms' r.
Proof. intros Hle (i & -> & Hi). exists i. split; [done|lia]. Qed.

Lemma wfFrames_mono frames ms ms' :
  (length ms ≤ length ms')%nat → wfFrames frames ms → wfFrames frames ms'.
Proof.
  intros Hle Hwf n f Hf. destruct (Hwf n f Hf). split; by eapply validRef_mono.
Qed.

Lemma wfFrames_insert frames ms n f :
  validRef ms (Players f) → validRef ms (Followers f) →
  wfFrames frames ms → wfFrames (<[n := f]> frames) ms.
Proof.
  intros Hp Hf Hwf n' f'. rewrite lookup_insert. case_decide.
  - by intros [= <-].
  - apply Hwf.
Qed.

Lemma ready_fields g p q :
  Frames q = Frames p → maps q = maps p → gameInfo q = gameInfo p →
  ready g p → ready g q.
Proof. unfold ready, wfParser. by intros -> -> ->. Qed.

Lemma total_finalizeFrames g target p : ready g p → total g (finalizeFrames target) p.
Proof.
  intros Hp. unfold total.
  eapply wp_mono; [apply finalizeFrames_spec| |]; cbv beta.
  - intros err q [Hfin _].
    destruct (finalizes_fields _ _ _ Hfin) as (_ & HF & _ & HG & _ & _ & _ & HM).
    by apply (ready_fields g p).
  - intros q (_ & _ & Hnil). destruct g; [|done].
    destruct Hp as [_ Hgi]. destruct (Hgi eq_refl). congruence.
Qed.

Lemma total_completeGameInfo g p : ready g p → total g completeGameInfo p.
Proof.
  intros Hp. unfold total, completeGameInfo. do 2 wp_step.
  destruct (gameInfoComplete p); wp_steps; done.
Qed.

Lemma total_getFrame n p (Q : FrameEntry → SlpParser → Prop) E :
  wfParser p →
  (∀ frame f, (length (maps p) ≤ length (f (maps p)))%nat →
              validRef (f (maps p)) (Players frame) →
              validRef (f (maps p)) (Followers frame) →
              Q frame (set_maps f p)) →
  wp (getFrame n) Q E p.
Proof.
  intros Hwf HQ.
  destruct (getFrame_ok n p Hwf) as (frame & f & Hget & [extra Hextra] & Hpl & Hfo & _).
  unfold wp. rewrite Hget. apply HQ; [|done..].
  rewrite Hextra, length_app. lia.
Qed.

Lemma total_installUpdate m i ut payload p (Q : unit → SlpParser → Prop) E :
  matches ut payload → validRef (maps p) m →
  (∀ f, length (f (maps p)) = length (maps p) → Q tt (set_maps f p)) →
  wp (installUpdate m i ut payload) Q E p.
Proof.
  intros Hm Hv HQ. destruct (installUpdate_ok m i ut payload p Hm Hv) as (f & Hf & Hlen).
  unfold wp. rewrite Hf. by apply HQ.
Qed.

Lemma total_handleFrameUpdate g ut payload p :
  matches ut payload → ready g p → total g (handleFrameUpdate ut payload) p.
Proof.
  intros Hm [Hwf Hgi]. unfold total, handleFrameUpdate. wp_step.
  apply total_getFrame; [done|]. intros frame f Hlen Hpl Hfo. do 2 wp_step.
  set (s := set_latestFrameIndex _ (set_maps f p)).
  assert (Hs : ∀ s', maps s' = maps s → Frames s' = Frames s → gameInfo s' = gameInfo s →
    wp (installUpdate
          (if IsFollower (GetFrameUpdate payload) then Followers frame else Players frame)
          (PlayerIndex (GetFrameUpdate payload)) ut payload ;;;
        modify (set_Frames <[FrameNumber (GetFrameUpdate payload) := frame]>) ;;;
        p0 <- get ;;
        if match gameInfo p0 with
           | Some gi0 => Version_LTE (GI_Version gi0) (mkVersion 2 2 0)
           | None => false
           end
        then
          p3 <- get ;;
          Trigger Frame (TPFrameEntry (FrameNumber (GetFrameUpdate payload))
                           (default zeroFrameEntry
                              (Frames p3 !! FrameNumber (GetFrameUpdate payload)))) ;;;
          finalizeFrames (int32 (FrameNumber (GetFrameUpdate payload) - 1))
        else
          modify (set_Frames <[FrameNumber (GetFrameUpdate payload) :=
                                 set_IsTransferComplete false frame]>) ;;;
          ret None)
       (λ _ q, ready g q) (λ _, g = false) s').
  { intros s' HM HF HG. wp_step. apply total_installUpdate; [done| |].
    { rewrite HM. simpl. by destruct (IsFollower _). }
    intros h Hh. wp_steps.
    assert (Hlen' : length (h (maps s')) = length (f (maps p))).
    { by rewrite Hh, HM. }
    assert (Hpl' : validRef (h (maps s')) (Players frame)).
    { eapply validRef_mono; [|exact Hpl]. lia. }
    assert (Hfo' : validRef (h (maps s')) (Followers frame)).
    { eapply validRef_mono; [|exact Hfo]. lia. }
    assert (Hwf' : wfFrames (<[FrameNumber (GetFrameUpdate payload) := frame]> (Frames s'))
                     (h (maps s'))).
    { apply wfFrames_insert; [done..|]. rewrite HF. simpl.
      eapply wfFrames_mono; [|exact Hwf]. lia. }
    assert (Hgi' : g = true → is_Some (gameInfo s')).
    { rewrite HG. exact Hgi. }
    simpl. destruct (match gameInfo s' with Some _ => _ | None => _ end); wp_steps.
    - by apply total_finalizeFrames.
    - split; [|done]. unfold wfParser. simpl. by apply wfFrames_insert. }
  destruct ut, (IsFollower (GetFrameUpdate payload)); try (do 2 wp_step; by apply Hs).
  do 3 wp_step. destruct (checkIfRollbackFrame _ _ _ _) as [[] r];
    do 3 wp_step; by apply Hs.
Qed.

Lemma total_handlePostFrameUpdate g x p :
  ready g p → total g (handlePostFrameUpdate x) p.
Proof.
  intros Hp. unfold total, handlePostFrameUpdate. wp_step.
  eapply wp_mono; [by apply (total_handleFrameUpdate g Post (IsPost x))| |done].
  cbv beta. intros [e|] q Hq; [by wp_step|]. do 2 wp_step.
  destruct (gameInfoComplete q); [by wp_step|].
  wp_step.
  assert (Hrest : ∀ s, ready g s →
    wp ((if -123 <? FrameNumber (Post_FrameUpdate x) then completeGameInfo else ret ()) ;;;
        ret (@None error)) (λ _ q0, ready g q0) (λ _, g = false) s).
  { intros s Hs. wp_step. destruct (_ <? _).
    - eapply wp_mono; [by apply total_completeGameInfo| |done]. cbv beta.
      intros _ s' Hs'. by wp_step.
    - by wp_steps. }
  destruct (_ <=? _); [|wp_step; by apply Hrest].
  destruct (gameInfo q) as [gi|] eqn:Hgi.
  - wp_step. apply Hrest. destruct Hq as [Hwf _]. split; [done|]. by intros _.
  - wp_step. destruct g; [|done]. destruct Hq as [_ Hq].
    destruct (Hq eq_refl). congruence.
Qed.

Lemma total_handleGameEnd g x p : ready g p → total g (handleGameEnd x) p.
Proof.
  intros Hp. unfold total, handleGameEnd. do 3 wp_step.
  assert (Hrest : ∀ (err : option error) s, ready g s →
    wp (modify (set_GameEnd (Some x)) ;;; Trigger Ended (TPGameEnd x) ;;; ret err)
       (λ _ q, ready g q) (λ _, g = false) s).
  { intros err s Hs. by wp_steps. }
  destruct (_ && _).
  - eapply wp_mono; [by apply total_finalizeFrames| |done]. cbv beta.
    intros err s Hs. by apply Hrest.
  - wp_step. by apply Hrest.
Qed.

Lemma total_handleItemUpdate g x p : ready g p → total g (handleItemUpdate x) p.
Proof.
  intros [Hwf Hgi]. unfold total, handleItemUpdate. wp_step.
  apply total_getFrame; [done|]. intros frame f Hlen Hpl Hfo. wp_step.
  split; [|done]. unfold wfParser. simpl. apply wfFrames_insert; [done..|].
  by eapply wfFrames_mono.
Qed.

Lemma total_handleFrameBookend g x p : ready g p → total g (handleFrameBookend x) p.
Proof.
  intros [Hwf Hgi]. unfold total, handleFrameBookend. wp_step.
  apply total_getFrame; [done|]. intros frame f Hlen Hpl Hfo. wp_steps.
  simpl.
  assert (Hs : ready g
    (set_emitted (λ l, l ++ [(Frame, TPFrameEntry (FB_FrameNumber x)
                                       (set_IsTransferComplete true frame))])
       (set_Frames <[FB_FrameNumber x := set_IsTransferComplete true frame]>
          (set_maps f p)))).
  { split; [|done]. unfold wfParser. simpl. apply wfFrames_insert; [done..|].
    by eapply wfFrames_mono. }
  destruct (gameInfo p) as [gi|] eqn:Hgp.
  - repeat case_match; try (by apply total_finalizeFrames). by wp_step.
  - wp_step. destruct g; [|done]. destruct (Hgi eq_refl). congruence.
Qed.

Lemma total_handleGameStart x p :
  wfParser p → wp (handleGameStart x) (λ _ q, ready true q) (λ _, False) p.
Proof.
  intros Hwf. unfold handleGameStart. do 2 wp_step.
  destruct (Version_GTE _ _); [|wp_step; split; [done|by eexists]].
  eapply wp_mono; [apply (total_completeGameInfo true)| |]; cbv beta; try done.
Qed.

Lemma ready_weaken g p : ready true p → ready g p.
Proof. intros [Hwf Hgi]. split; [done|]. intros _. by apply Hgi. Qed.

Lemma total_handleEvent g e p :
  wellTyped e = true → ready g p → total g (handleEvent e) p.
Proof.
  intros Ht Hp. destruct e as [cmd payload]. unfold total, handleEvent, wellTyped in *.
  simpl in *.
  repeat (destruct (cmd =? _); [destruct payload; try done|]).
  - wp_step. eapply wp_mono; [apply total_handleGameStart, Hp| |done]. cbv beta.
    intros _ q Hq. wp_step. by apply ready_weaken.
  - by apply total_handleFrameUpdate.
  - by apply total_handlePostFrameUpdate.
  - by apply total_handleGameEnd.
  - wp_step. eapply wp_mono; [by apply total_handleItemUpdate| |done]. cbv beta.
    intros _ q Hq. by wp_step.
  - by apply total_handleFrameBookend.
  - by wp_step.
Qed.

Lemma handleEvent_illTyped e p : wellTyped e = false → handleEvent e p = Panic p.
Proof.
  destruct e as [cmd payload]. unfold wellTyped, handleEvent. simpl.
  repeat (destruct (cmd =? _); [by destruct payload|]). done.
Qed.

Lemma reachable_wfParser options p : reachable options p → wfParser p.
Proof.
  induction 1 as [|p e err q Hp IH Hv He].
  - by apply wfParser_empty.
  - destruct (wellTyped e) eqn:Ht.
    + pose proof (total_handleEvent false e p Ht) as H. unfold total, wp in H.
      rewrite He in H. by apply H.
    + by rewrite handleEvent_illTyped in He.
Qed.

Lemma wp_makeMap Q E p :
  Q (Some (length (maps p))) (set_maps (λ ms, ms ++ [∅]) p) → wp makeMap Q E p.
Proof. done. Qed.

Lemma wp_mapGet r k Q E p : Q (mapContents (maps p) r !! k) p → wp (mapGet r k) Q E p.
Proof. done. Qed.

Lemma wp_mapSet r k v (Q : unit → SlpParser → Prop) E p :
  (∀ f, Q tt (set_maps f p)) → E p → wp (mapSet r k v) Q E p.
Proof.
  intros HQ HE. unfold wp, mapSet. destruct r as [i|]; [|done].
  destruct (maps p !! i); [apply HQ|done].
Qed.

(** [handleFrameUpdate] leaves the game info and its completion flag as
    they are, whether it returns or panics; with a nil [gameInfo] it
    finalizes nothing and so returns no error. *)
Lemma handleFrameUpdate_gameInfo ut payload p :
  wp (handleFrameUpdate ut payload)
     (λ err q, sameGameInfo p q ∧ (gameInfo p = None → err = None))
     (sameGameInfo p) p.
Proof.
  unfold handleFrameUpdate. wp_step.
  set (Q := λ (err : option error) q,
              sameGameInfo p q ∧ (gameInfo p = None → err = None)).
  assert (Htail : ∀ frame s, sameGameInfo p s →
    wp (p0 <- get ;;
        if match gameInfo p0 with
           | Some gi0 => Version_LTE (GI_Version gi0) (mkVersion 2 2 0)
           | None => false
           end
        then
          p3 <- get ;;
          Trigger Frame (TPFrameEntry (FrameNumber (GetFrameUpdate payload))
                           (default zeroFrameEntry
                              (Frames p3 !! FrameNumber (GetFrameUpdate payload)))) ;;;
          finalizeFrames (int32 (FrameNumber (GetFrameUpdate payload) - 1))
        else
          modify (set_Frames <[FrameNumber (GetFrameUpdate payload) :=
                                 set_IsTransferComplete false frame]>) ;;;
          ret None)
       Q (sameGameInfo p) s).
  { intros frame s [Hg Hc]. do 2 wp_step.
    assert (Hdefer :
      wp (modify (set_Frames <[FrameNumber (GetFrameUpdate payload) :=
                                 set_IsTransferComplete false frame]>) ;;;
          ret None) Q (sameGameInfo p) s).
    { wp_steps. unfold Q. by split. }
    destruct (gameInfo s) as [gi|] eqn:Hgi; [destruct (Version_LTE _ _)|]; try done.
    wp_steps. eapply wp_mono; [apply finalizeFrames_spec| |]; cbv beta.
    - intros err q [Hfin _].
      destruct (finalizes_fields _ _ _ Hfin) as (_ & _ & _ & HG & _ & _ & HC & _).
      simpl in HG, HC. split; [split; congruence|]. intros Hnil. congruence.
    - intros q [Hfin _].
      destruct (finalizes_fields _ _ _ Hfin) as (_ & _ & _ & HG & _ & _ & HC & _).
      simpl in HG, HC. split; congruence. }
  assert (Hinstall : ∀ frame s, sameGameInfo p s →
    wp (installUpdate
          (if IsFollower (GetFrameUpdate payload) then Followers frame else Players frame)
          (PlayerIndex (GetFrameUpdate payload)) ut payload ;;;
        modify (set_Frames <[FrameNumber (GetFrameUpdate payload) := frame]>) ;;;
        p0 <- get ;;
        if match gameInfo p0 with
           | Some gi0 => Version_LTE (GI_Version gi0) (mkVersion 2 2 0)
           | None => false
           end
        then
          p3 <- get ;;
          Trigger Frame (TPFrameEntry (FrameNumber (GetFrameUpdate payload))
                           (default zeroFrameEntry
                              (Frames p3 !! FrameNumber (GetFrameUpdate payload)))) ;;;
          finalizeFrames (int32 (FrameNumber (GetFrameUpdate payload) - 1))
        else
          modify (set_Frames <[FrameNumber (GetFrameUpdate payload) :=
                                 set_IsTransferComplete false frame]>) ;;;
          ret None)
       Q (sameGameInfo p) s).
  { intros frame s Hs. wp_step. unfold installUpdate. wp_step. apply wp_mapGet.
    wp_step.
    destruct ut, payload; try (by wp_step); wp_step;
      (apply wp_mapSet; [|done]; intros f; do 2 wp_step; by apply Htail). }
  assert (Hroll : ∀ frame s, sameGameInfo p s →
    wp (modify (set_latestFrameIndex (FrameNumber (GetFrameUpdate payload))) ;;;
        (match ut, IsFollower (GetFrameUpdate payload) with
         | Pre, false =>
             p0 <- get ;;
             let currentFrame :=
               default zeroFrameEntry (Frames p0 !! FrameNumber (GetFrameUpdate payload)) in
             let '(isRollback, r) :=
               checkIfRollbackFrame (FrameNumber (GetFrameUpdate payload))
                 (Some currentFrame) (PlayerIndex (GetFrameUpdate payload))
                 (P_Rollbacks p0) in
             modify (set_Rollbacks r) ;;;
             if isRollback
             then Trigger RollbackFrame
                    (TPFrameEntry (FrameNumber (GetFrameUpdate payload)) currentFrame)
             else ret tt
         | _, _ => ret tt
         end) ;;;
        installUpdate
          (if IsFollower (GetFrameUpdate payload) then Followers frame else Players frame)
          (PlayerIndex (GetFrameUpdate payload)) ut payload ;;;
        modify (set_Frames <[FrameNumber (GetFrameUpdate payload) := frame]>) ;;;
        p0 <- get ;;
        if match gameInfo p0 with
           | Some gi0 => Version_LTE (GI_Version gi0) (mkVersion 2 2 0)
           | None => false
           end
        then
          p3 <- get ;;
          Trigger Frame (TPFrameEntry (FrameNumber (GetFrameUpdate payload))
                           (default zeroFrameEntry
                              (Frames p3 !! FrameNumber (GetFrameUpdate payload)))) ;;;
          finalizeFrames (int32 (FrameNumber (GetFrameUpdate payload) - 1))
        else
          modify (set_Frames <[FrameNumber (GetFrameUpdate payload) :=
                                 set_IsTransferComplete false frame]>) ;;;
          ret None)
       Q (sameGameInfo p) s).
  { intros frame s Hs. do 2 wp_step.
    destruct ut, (IsFollower (GetFrameUpdate payload));
      try (do 2 wp_step; by apply Hinstall).
    do 3 wp_step. cbv zeta. destruct (checkIfRollbackFrame _ _ _ _) as [[] r];
      do 3 wp_step; by apply Hinstall. }
  unfold getFrame. do 2 wp_step. destruct (Frames p !! _).
  - wp_step. by apply Hroll.
  - wp_step. apply wp_makeMap. wp_step. apply wp_makeMap. wp_step. by apply Hroll.
Qed.

(** C9, counterexample: no [GameStart] is handled; a post-frame update of
    frame -122 marks the game info complete, and the post-frame update of
    frame -123 after it returns without touching [gameInfo]: the parser
    does not panic. *)
Lemma nil_gameInfo_counterexample :
  returned (ParseReplay (okResults [evPost (postUpdate (-122) 0 0);
                                    evPost (postUpdate (-123) 0 0)])
              (NewSlpParser (mkSlpParserOpts false)))
  = Some None.
Proof. reflexivity. Qed.

(** C9, amended. In a state the parser reaches with [gameInfo] still nil
    (no [GameStart] handled yet), handling a [FrameBookend] panics, and so
    does handling a [PostFrameUpdate] with frame number at most -123 while
    the game info is not marked complete. Once [gameInfo] is set, no
    handler panics on an event whose payload has the type of its command,
    and [gameInfo] stays set. *)
Theorem nil_gameInfo_panics options p :
  reachable options p →
  (gameInfo p = None →
   (∀ b, returned (handleFrameBookend b p) = None) ∧
   (∀ x, gameInfoComplete p = false →
         FrameNumber (Post_FrameUpdate x) ≤ -123 →
         returned (handlePostFrameUpdate x p) = None)) ∧
  (is_Some (gameInfo p) →
   ∀ e, wellTyped e = true →
        ∃ err q, handleEvent e p = Ret err q ∧ is_Some (gameInfo q)).
Proof.
  intros Hreach. split.
  - intros Hnil. split.
    + intros b.
      unfold handleFrameBookend, getFrame, bind, get, makeMap, modify, Trigger, ret, panic.
      destruct (Frames p !! FB_FrameNumber b); simpl; by rewrite Hnil.
    + intros x Hincomplete Hframe. unfold handlePostFrameUpdate, bind at 1.
      pose proof (handleFrameUpdate_gameInfo Post (IsPost x) p) as H. unfold wp in H.
      destruct (handleFrameUpdate Post (IsPost x) p) as [err q|q]; [|done].
      destruct H as ([Hq Hc] & Herr). rewrite (Herr Hnil). unfold bind, get, panic.
      apply Z.leb_le in Hframe. by rewrite Hc, Hincomplete, Hframe, Hq, Hnil.
  - intros Hgi e Ht.
    pose proof (total_handleEvent true e p Ht) as H. unfold total, wp in H.
    destruct (handleEvent e p) as [err q|q].
    + exists err, q. split; [done|]. apply H; [|done].
      split; [by eapply reachable_wfParser|done].
    + exfalso. enough (true = false) by done. apply H.
      split; [by eapply reachable_wfParser|done].
Qed.

(** C9 at work: a bookend and a post-frame update of frame -123 handled
    by a new parser, and a bookend handled after the start of a game. *)
Lemma nil_gameInfo_panics_witness :
  let fresh := NewSlpParser (mkSlpParserOpts false) in
  returned (handleFrameBookend (mkFrameBookendPayload (-123) (-123)) fresh) = None ∧
  returned (handlePostFrameUpdate (postUpdate (-123) 0 0) fresh) = None ∧
  ∃ err q, handleEvent (evBookend (-123) (-123)) afterFirstFrame = Ret err q ∧
           is_Some (gameInfo q).
Proof.
  intros fresh.
  destruct (nil_gameInfo_panics (mkSlpParserOpts false) fresh
              (reachable_new (mkSlpParserOpts false))) as [Hnil _].
  destruct (Hnil eq_refl) as [Hbookend Hpost].
  destruct (nil_gameInfo_panics (mkSlpParserOpts false) afterFirstFrame
              afterFirstFrame_reachable) as [_ Hset].
  split_and!.
  - apply Hbookend.
  - apply Hpost; [reflexivity|simpl; lia].
  - apply Hset; [|reflexivity]. vm_compute. by eexists.
Defined.

(** ** C4: the character patch of the first frames *)

(** Once the game info is complete, a post-frame update leaves it alone. *)
Lemma handlePostFrameUpdate_complete x p :
  gameInfoComplete p = true →
  sameGameInfo p (final_state (handlePostFrameUpdate x p)).
Proof.
  intros Hc. unfold handlePostFrameUpdate, bind at 1.
  pose proof (handleFrameUpdate_gameInfo Post (IsPost x) p) as H. unfold wp in H.
  destruct (handleFrameUpdate Post (IsPost x) p) as [[e|] q|q]; simpl; try tauto.
  destruct H as [[Hg Hq] _]. unfold bind, get. by rewrite Hq, Hc.
Qed.

(** C4, counterexample: scenario 2 at version 3.0.0 with character 0x02 in
    [GameStart]: after parsing the character of the player is still 0x02,
    not 0x12. *)
Lemma character_patch_counterexample :
  playerCharacter 0
    (final_state (ParseReplay (okResults (scenario2 (mkVersion 3 0 0) 0x02))
                    (NewSlpParser (mkSlpParserOpts false))))
  ≠ Some 0x12.
Proof. by vm_compute. Qed.

(** A version below 1.6.0 is not above 2.2.0. *)
Lemma Version_LTE_below v :
  Version_GTE v (mkVersion 1 6 0) = false → Version_LTE v (mkVersion 2 2 0) = true.
Proof.
  destruct v as [a b c]. unfold Version_GTE, Version_LTE, Version_Compare. simpl.
  intros H.
  repeat match goal with
  | H : context [?x =? ?y] |- _ => destruct (Z.eqb_spec x y); simpl in *
  | H : context [?x <? ?y] |- _ => destruct (Z.ltb_spec x y); simpl in *
  | |- context [?x =? ?y] => destruct (Z.eqb_spec x y); simpl in *
  | |- context [?x <? ?y] => destruct (Z.ltb_spec x y); simpl in *
  end; try done; try lia.
Qed.

Lemma wp_eval {A} (m : M A) Q E p o :
  m p = o → match o with Ret a q => Q a q | Panic q => E q end → wp m Q E p.
Proof. by intros <-. Qed.

(** Runs a call whose outcome in the state at hand is computed. *)
Ltac wp_run :=
  lazymatch goal with
  | |- wp ?m ?Q ?E ?p =>
      let r := eval vm_compute in (m p) in
      lazymatch r with
      | Ret _ _ => idtac
      | Panic _ => idtac
      end;
      apply (wp_eval m Q E p r); [vm_compute; reflexivity|cbv beta iota]
  end.

Ltac wp_runs := repeat (simple apply wp_bind; wp_run).

(** Runs [handleFrameUpdate] in a state whose game info has a version
    that [Hle] places with respect to 2.2.0. *)
Ltac wp_frame_update Hle :=
  unfold handleFrameUpdate; cbv zeta; wp_runs;
  cbn [gameInfo GI_Version]; rewrite Hle; wp_run.

(** C4, amended. For the scenario-2 replay at any version from 1.6.0 on
    (3.0.0 among them) the character of player 0 is, after parsing, the
    one [GameStart] carried: such a [GameStart] completes the game info,
    and a post-frame update handled while the game info is complete
    leaves it as it is. At any version below 1.6.0 the same replay ends
    with the character patched to 0x12. *)
Theorem character_patch_only_before_completion :
  (∀ strict version character,
     Version_GTE version (mkVersion 1 6 0) = true →
     let q := final_state (ParseReplay (okResults (scenario2 version character))
                             (NewSlpParser (mkSlpParserOpts strict))) in
     gameInfoComplete q = true ∧ playerCharacter 0 q = Some character) ∧
  (∀ x p, gameInfoComplete p = true →
          gameInfo (final_state (handlePostFrameUpdate x p)) = gameInfo p) ∧
  (∀ strict version character,
     Version_GTE version (mkVersion 1 6 0) = false →
     playerCharacter 0
       (final_state (ParseReplay (okResults (scenario2 version character))
                       (NewSlpParser (mkSlpParserOpts strict))))
     = Some 0x12).
Proof.
  split_and!.
  - intros strict version character Hge q. subst q.
    apply (wp_final _ (λ q, gameInfoComplete q = true ∧
                            playerCharacter 0 q = Some character)).
    unfold scenario2, okResults. cbn [map ParseReplay Error Event]. wp_step.
    change (handleEvent (evGameStart (gameStart version (onePlayer character) 8)))
      with (handleGameStart (gameStart version (onePlayer character) 8) ;;;
            ret (@None error)).
    unfold handleGameStart. cbn [gameStart GS_Version]. rewrite Hge.
    destruct (Version_LTE version (mkVersion 2 2 0)) eqn:Hle; destruct strict.
    all: wp_run; wp_step.
    all: change (handleEvent (evPre (preUpdate (-123) 0 1)))
           with (handleFrameUpdate Pre (IsPre (preUpdate (-123) 0 1)));
         wp_frame_update Hle.
    all: wp_step.
    all: change (handleEvent (evPost (postUpdate (-123) 0 19)))
           with (handlePostFrameUpdate (postUpdate (-123) 0 19));
         unfold handlePostFrameUpdate; wp_step; wp_frame_update Hle.
    all: wp_run; wp_run.
    all: by vm_compute.
  - intros x p Hc. by destruct (handlePostFrameUpdate_complete x p Hc).
  - intros strict version character Hge.
    pose proof (Version_LTE_below version Hge) as Hle.
    apply (wp_final _ (λ q, playerCharacter 0 q = Some 0x12)).
    unfold scenario2, okResults. cbn [map ParseReplay Error Event]. wp_step.
    change (handleEvent (evGameStart (gameStart version (onePlayer character) 8)))
      with (handleGameStart (gameStart version (onePlayer character) 8) ;;;
            ret (@None error)).
    unfold handleGameStart. cbn [gameStart GS_Version]. rewrite Hge.
    destruct strict.
    all: wp_run; wp_step.
    all: change (handleEvent (evPre (preUpdate (-123) 0 1)))
           with (handleFrameUpdate Pre (IsPre (preUpdate (-123) 0 1)));
         wp_frame_update Hle.
    all: wp_step.
    all: change (handleEvent (evPost (postUpdate (-123) 0 19)))
           with (handlePostFrameUpdate (postUpdate (-123) 0 19));
         unfold handlePostFrameUpdate; wp_step; wp_frame_update Hle.
    all: wp_run; wp_run.
    all: by vm_compute.
Qed.

(** C4 at work, on both sides of the boundary: scenario 2 with character
    0x02 at version 1.6.0 and at version 1.5.9. *)
Lemma character_patch_only_before_completion_witness :
  (let q := final_state (ParseReplay (okResults (scenario2 (mkVersion 1 6 0) 0x02))
                           (NewSlpParser (mkSlpParserOpts false))) in
   gameInfoComplete q = true ∧ playerCharacter 0 q = Some 0x02) ∧
  playerCharacter 0
    (final_state (ParseReplay (okResults (scenario2 (mkVersion 1 5 9) 0x02))
                    (NewSlpParser (mkSlpParserOpts false))))
  = Some 0x12.
Proof.
  destruct character_patch_only_before_completion as (Hnew & _ & Hold).
  split.
  - apply (Hnew false (mkVersion 1 6 0) 0x02). reflexivity.
  - apply (Hold false (mkVersion 1 5 9) 0x02). reflexivity.
Defined.

(** ** C1: the rollback ledger *)

(** The lengths of the rollback runs never change: [handleFrameUpdate]
    hands [checkIfRollbackFrame] the address of a local variable, which is
    never nil, so the branch that closes a run is never taken. *)
#[local] Instance sameLengths_stable : Stable isInt32 sameLengths.
Proof.
  split.
  - split; [done|]. intros p q r. unfold sameLengths. congruence.
  - done.
  - intros n f i p. unfold sameLengths, checkIfRollbackFrame. simpl.
    by repeat case_match.
  - done.
  - done.
  - done.
  - done.
  - apply int32_range.
  - done.
  - done.
  - intros target p q _ H. unfold sameLengths.
    by destruct (finalizes_fields _ _ _ H) as (_ & _ & -> & _).
  - intros p q H. unfold sameLengths.
    by destruct (finalizes_fields _ _ _ H) as (_ & _ & -> & _).
Qed.

(** C1. What the parser does on scenario 3, where the claim expects one
    [RollbackFrame(-122)], [Count = 1] and [Lengths = [1]]: the run ends
    without error; every pre-frame update of player 0 has been counted and
    emitted as a rollback, the first transmissions included; no run length
    has been recorded. The entry emitted at the retransmission shares its
    player map with the live frame: read when it was emitted it holds the
    pre-frame update with seed 2, read at the end it holds the
    retransmitted one. And in no state a parser reaches is [Lengths]
    anything but empty. *)
Theorem rollback_scenario_ledger :
  let fresh := NewSlpParser (mkSlpParserOpts false) in
  let run := ParseReplay (okResults scenario3) fresh in
  let q := final_state run in
  let before := final_state (ParseReplay (okResults (take 7 scenario3)) fresh) in
  let snapshot := default zeroFrameEntry (Frames before !! (-122)) in
  returned run = Some None ∧
  Count (P_Rollbacks q) = 4 ∧
  Lengths (P_Rollbacks q) = [] ∧
  rollbackFrames (emitted q) = [-123; -122; -122; -121] ∧
  emitted q !! 6%nat = Some (RollbackFrame, TPFrameEntry (-122) snapshot) ∧
  mapContents (maps before) (Players snapshot) !! 0 ≫= FU_Pre
    = Some (preUpdate (-122) 0 2) ∧
  mapContents (maps q) (Players snapshot) !! 0 ≫= FU_Pre
    = Some (preUpdate (-122) 0 3) ∧
  (∀ options p, reachable options p → Lengths (P_Rollbacks p) = []).
Proof.
  split_and!; try by vm_compute.
  intros options p Hp. by apply (reachable_keeps sameLengths) in Hp.
Qed.

(** ** The fuel of the reader's loop *)

Lemma Read_ok buf s buf' n err s' :
  0 ≤ s_off s →
  Read buf s = (buf', n, err, s') →
  length buf' = length buf ∧ 0 ≤ s_off s' ∧ 0 ≤ n ∧
  (err = None → buf ≠ [] → 1 ≤ n).
Proof.
  intros Hoff. unfold Read.
  destruct (Z.of_nat (length (s_bytes s)) <=? s_off s) eqn:Hle.
  - intros [= <- <- <- <-]. by split_and!.
  - apply Z.leb_gt in Hle. intros [= <- <- <- <-].
    set (avail := drop (Z.to_nat (s_off s)) (s_bytes s)).
    assert (Havail : (0 < length avail)%nat).
    { unfold avail. rewrite length_drop. lia. }
    split_and!.
    + rewrite length_app, length_take, length_drop. lia.
    + simpl. lia.
    + lia.
    + intros _ Hbuf. destruct buf; [done|]. cbn [length]. lia.
Qed.

Lemma SeekCurrent_ok offset s s' :
  0 ≤ s_off s → SeekCurrent offset s = (None, s') → 0 ≤ s_off s'.
Proof.
  intros Hoff. unfold SeekCurrent.
  destruct (s_off s + offset <? 0) eqn:Hlt; [done|].
  apply Z.ltb_ge in Hlt. by intros [= <-].
Qed.

(** Fuel for [end_ - position] iterations is enough: more fuel does not
    change what the loop does. *)
Lemma yieldLoop_fuel T fuel incl stop end_ position commandBuf payloadBuffers s :
  0 ≤ s_off s → length commandBuf = 1%nat →
  (Z.to_nat (end_ - position) ≤ fuel)%nat →
  yieldLoop T (S fuel) incl stop end_ position commandBuf payloadBuffers s
  = yieldLoop T fuel incl stop end_ position commandBuf payloadBuffers s.
Proof.
  revert position commandBuf payloadBuffers s.
  induction fuel as [|fuel IH]; intros position commandBuf payloadBuffers s Hoff Hbuf Hfuel.
  - simpl. destruct (position <? end_) eqn:Hlt; [|done].
    apply Z.ltb_lt in Hlt. lia.
  - set (lhs := yieldLoop T (S (S fuel)) incl stop end_ position commandBuf payloadBuffers s).
    cbn [yieldLoop]. subst lhs. remember (S fuel) as fuel1 eqn:Hfuel1. cbn [yieldLoop].
    destruct (position <? end_) eqn:Hlt; [|done]. apply Z.ltb_lt in Hlt.
    destruct (Read commandBuf s) as [[[commandBuf' n] err] s1] eqn:HR.
    destruct (Read_ok _ _ _ _ _ _ Hoff HR) as (Hbuf' & Hoff1 & Hn & Hn1).
    destruct err as [e|]; [done|]. cbn [bool_decide decide_rel]. simpl.
    assert (1 ≤ n) as Hn' by (apply Hn1; [done|by destruct commandBuf]).
    destruct (payloadBuffers !! default 0 (commandBuf' !! 0%nat)) as [payload|]; [|done].
    destruct (negb _).
    + destruct (SeekCurrent _ s1) as [[e|] s2] eqn:HS; [done|]. simpl.
      subst fuel1. apply IH; [by eapply SeekCurrent_ok|lia|lia].
    + destruct (Read payload s1) as [[[payload' n2] err2] s2] eqn:HR2.
      destruct (Read_ok _ _ _ _ _ _ Hoff1 HR2) as (_ & Hoff2 & Hn2 & _).
      destruct err2 as [e|]; [done|]. simpl.
      destruct (parsePayload _ _ _ _) as [event| |]; try done.
      destruct (stop event); [done|]. f_equal.
      subst fuel1. apply IH; [done|lia|lia].
Qed.

(** ** C2 and C3: the reader on an unknown and on an excluded command *)

(** The loop on a command byte without payload buffer: the result it
    sends has a nil event and, for error, the nil [err] of the read that
    has just succeeded. *)
Lemma yieldLoop_unknown_command T fuel incl stop end_ position payloadBuffers s command rest :
  position < end_ →
  0 ≤ s_off s →
  drop (Z.to_nat (s_off s)) (s_bytes s) = command :: rest →
  payloadBuffers !! command = None →
  yieldLoop T (S fuel) incl stop end_ position [0] payloadBuffers s
  = Closed [mkSlpEventResult None None] (set_off (s_off s + 1) s) payloadBuffers.
Proof.
  intros Hpos Hoff Hdrop Hnone. simpl.
  apply Z.ltb_lt in Hpos. rewrite Hpos. unfold Read.
  assert (Hlen : (Z.to_nat (s_off s) < length (s_bytes s))%nat).
  { apply (f_equal length) in Hdrop. rewrite length_drop in Hdrop. simpl in Hdrop. lia. }
  destruct (Z.of_nat (length (s_bytes s)) <=? s_off s) eqn:Hle;
    [apply Z.leb_le in Hle; lia|].
  rewrite Hdrop. simpl. by rewrite Hnone.
Qed.

(** A result with a nil event and a nil error makes [ParseReplay]
    dereference the nil event. *)
Lemma ParseReplay_nil_result rest p :
  ParseReplay (mkSlpEventResult None None :: rest) p = Panic p.
Proof. done. Qed.

(** C2. The replay with the byte 0x40 after frame -123, where the claim
    expects a result with an UnknownCommand error that names 0x40 and
    [ParseReplay] returning it: the reader yields the five events before
    the byte, then a result whose event and error are both nil, and closes
    the channel; [ParseReplay] handles the five events and panics on the
    sixth result, which it dereferences. It returns no error. The frame
    parsed before is in [Frames] at the time of the panic. *)
Theorem unknown_command_scenario :
  match processFile id (replayFile rawUnknown) with
  | Some (y, o) =>
      closed y ∧
      map summary (sent y)
      = [(Some 0x35, None); (Some 0x36, None); (Some 0x37, None); (Some 0x38, None);
         (Some 0x3C, None); (None, None)] ∧
      returned o = None ∧
      (∀ e, returned o ≠ Some (Some e)) ∧
      is_Some (Frames (final_state o) !! (-123))
  | None => False
  end.
Proof. vm_compute. split_and!; try done. by eexists. Qed.

(** C3. The replay with an item update, read with [SetInclude(0x3B,
    false)], where the claim expects every other event without error: the
    item update is skipped and no frame holds an item, but the skipped
    bytes are not added to [position], so the loop goes on after the last
    event of the raw region; it reads the first byte after the region as a
    command, finds no payload size for it and sends a result with nil event
    and nil error, on which [ParseReplay] panics. With every command
    included the same file is read and parsed to its end. *)
Theorem excluded_command_scenario :
  match processFile excludeItems (replayFile rawItem),
        processFile id (replayFile rawItem) with
  | Some (y, o), Some (y', o') =>
      (* every command included *)
      map summary (sent y')
      = [(Some 0x35, None); (Some 0x36, None); (Some 0x37, None); (Some 0x3B, None);
         (Some 0x38, None); (Some 0x3C, None); (Some 0x39, None)] ∧
      returned o' = Some None ∧
      s_off (finalSource y') = 15 + Z.of_nat (length rawItem) ∧
      (* ItemUpdate excluded *)
      closed y ∧
      map summary (sent y)
      = [(Some 0x35, None); (Some 0x36, None); (Some 0x37, None);
         (Some 0x38, None); (Some 0x3C, None); (Some 0x39, None); (None, None)] ∧
      s_off (finalSource y) = 15 + Z.of_nat (length rawItem) + 1 ∧
      returned o = None ∧
      map_to_list (Items <$> Frames (final_state o)) = [(-123, [])]
  | _, _ => False
  end.
Proof. by vm_compute. Qed.
